(** * c-kzg-4844, Go bindings ([bindings/go/main.go])

    A shallow embedding of the Go binding layer of c-kzg-4844 and of the
    properties its specification states about it.

    The Go file is a thin cgo wrapper: every interface function checks the
    package-level flag [loaded], validates what can be validated on the Go
    side (nil blob pointers, parallel slice lengths), calls one function of
    the C library and translates the C return code into a Go [error].  The
    embedding keeps that structure:

    - the package-level variables [loaded] and [settings] are an explicit
      state, threaded through a small state-and-panic monad;
    - the C library and the C macros the Go constants are bound to are
      records of which the wrappers are clients;
    - the [UnmarshalText] methods are embedded together with the part of
      Go's [encoding/hex] and [bytes] packages they call;
    - the C library itself is not part of the Go file: where a property
      depends on what the library computes, the library is modelled from
      the specification of the cryptographic core (field elements,
      polynomials in evaluation form, commitments, proofs, cells). *)

Set Warnings "-notation-overridden,-ambiguous-paths,-redundant-canonical-projection,-rewrite-rw,-notation-for-abbreviation".
From Stdlib Require Import String.
From Stdlib.Strings Require Byte.
From HB Require Import structures.
From mathcomp Require Import ssreflect ssrfun ssrbool eqtype ssrnat seq choice.
From mathcomp Require Import fintype div prime bigop.
From mathcomp Require Import ssralg poly polydiv zmodp ring_tactic field_tactic.

Set Implicit Arguments.
Unset Strict Implicit.
Unset Printing Implicit Defensive.

Import GRing.Theory.

(** ** Bytes and fixed-size arrays *)

(** Go's [byte].  Equality on bytes is decided through [Byte.to_nat]. *)
Definition byte : Type := Byte.byte.
HB.instance Definition _ := Equality.copy Byte.byte (pcan_type Byte.of_to_nat).
HB.instance Definition _ := Equality.on byte.

Definition byte_val (b : byte) : nat := Byte.to_nat b.

(** Conversion of an integer to [uint8]: reduction modulo 256. *)
Definition byte_of_nat (n : nat) : byte :=
  odflt Byte.x00 (Byte.of_nat (n %% 256)).

(** Go's array types.  A Go array has its length in its type; here an
    array is a sequence and the length is a well-formedness condition
    ([size b = 32] for a [Bytes32], and so on). *)
Definition Bytes32 : Type := seq byte.
Definition Bytes48 : Type := seq byte.
Definition KZGCommitment : Type := Bytes48.
Definition KZGProof : Type := Bytes48.
Definition Blob : Type := seq byte.
Definition Cell : Type := seq Bytes32.

(** [uint64] values are only passed through to the C library. *)
Definition uint64 : Type := nat.

(** ** C return codes and Go errors *)

(** Modelled from the spec: the C header's return-code enumeration
    [C_KZG_RET] is not part of the Go file; the spec's error taxonomy has a
    success value and the three kinds BadArguments, InternalError and
    AllocationFailure, in the order of the enumeration.  cgo gives the Go
    side an unsigned integer. *)
Definition C_KZG_RET : Type := nat.
Definition C_KZG_OK : C_KZG_RET := 0.
Definition C_KZG_BADARGS : C_KZG_RET := 1.
Definition C_KZG_ERROR : C_KZG_RET := 2.
Definition C_KZG_MALLOC : C_KZG_RET := 3.

(** The values a Go [error] returned by this package can hold: the three
    package-level errors, the [fmt.Errorf] value of [makeErrorFromRet]'s
    fall-through, and the two errors of [encoding/hex]. *)
Inductive error : Type :=
| ErrBadArgs                                (* errors.New("bad arguments") *)
| ErrError                                  (* errors.New("unexpected error") *)
| ErrMalloc                                 (* errors.New("malloc failed") *)
| ErrUnexpectedFromC (ret : C_KZG_RET)      (* "unexpected error from c-library: %v" *)
| HexInvalidByteError (c : byte)            (* hex.InvalidByteError *)
| HexErrLength.                             (* hex.ErrLength *)

(** The argument of a Go [panic]: a string, or the result of
    [fmt.Sprintf] with one integer argument; the run-time panics of index
    expressions are kept apart. *)
Inductive panic_value : Type :=
| PanicString (msg : string)
| PanicSprintf (format : string) (arg : nat)
| PanicIndexOutOfRange.

(** The outcome of running Go code: it returns, or the goroutine panics. *)
Inductive Result (A : Type) : Type :=
| Panicked (v : panic_value)
| Returned (a : A).
Arguments Panicked {A} v.
Arguments Returned {A} a.

(** [makeErrorFromRet] translates a C return code into a Go error. *)
Definition makeErrorFromRet (ret : C_KZG_RET) : error :=
  if ret == C_KZG_BADARGS then ErrBadArgs
  else if ret == C_KZG_ERROR then ErrError
  else if ret == C_KZG_MALLOC then ErrMalloc
  else ErrUnexpectedFromC ret.

(** ** [bytes.HasPrefix] and [encoding/hex] *)

(** The ASCII codes of ['0'] and ['x']. *)
Definition char_0 : byte := Byte.x30.
Definition char_x : byte := Byte.x78.

(** [bytes.HasPrefix(input, []byte("0x"))]. *)
Definition has_0x_prefix (input : seq byte) : bool :=
  if input is c0 :: c1 :: _ then (c0 == char_0) && (c1 == char_x) else false.

(** [if bytes.HasPrefix(input, []byte("0x")) { input = input[2:] }]. *)
Definition strip_0x (input : seq byte) : seq byte :=
  if has_0x_prefix input then drop 2 input else input.

(** [hex.fromHexChar]: the value of a hexadecimal digit, of either case. *)
Definition fromHexChar (c : byte) : option nat :=
  let n := byte_val c in
  if (48 <= n) && (n <= 57) then Some (n - 48)
  else if (97 <= n) && (n <= 102) then Some (n - 97 + 10)
  else if (65 <= n) && (n <= 70) then Some (n - 65 + 10)
  else None.

(** [(a << 4) | b] on [uint8]. *)
Definition shl4_or (a b : nat) : byte :=
  byte_of_nat (Nat.lor (Nat.shiftl a 4 %% 256) b).

(** [hex.Decode(dst, src)]: the loop over pairs of characters, started
    with [i] bytes written.  It returns the destination after the
    writes, the number of bytes written and the error.  A write past the
    end of [dst] is Go's index-out-of-range panic. *)
Fixpoint hex_Decode_from (i : nat) (dst src : seq byte)
  : Result (seq byte * nat * option error) :=
  match src with
  | [::] => Returned (dst, i, None)
  | [:: p] =>
      if fromHexChar p is Some _ then Returned (dst, i, Some HexErrLength)
      else Returned (dst, i, Some (HexInvalidByteError p))
  | p :: q :: src' =>
      match fromHexChar p, fromHexChar q with
      | None, _ => Returned (dst, i, Some (HexInvalidByteError p))
      | Some _, None => Returned (dst, i, Some (HexInvalidByteError q))
      | Some a, Some b =>
          if i < size dst
          then hex_Decode_from i.+1 (set_nth Byte.x00 dst i (shl4_or a b)) src'
          else Panicked PanicIndexOutOfRange
      end
  end.

Definition hex_Decode (dst src : seq byte) := hex_Decode_from 0 dst src.

(** ** The C side *)

(** The macros of the C header the Go constants are bound to. *)
Record CMacros : Type := {
  BYTES_PER_BLOB : nat;
  BYTES_PER_COMMITMENT : nat;
  BYTES_PER_FIELD_ELEMENT : nat;
  BITS_PER_FIELD_ELEMENT : nat;
  BYTES_PER_PROOF : nat;
  FIELD_ELEMENTS_PER_BLOB : nat;
  FIELD_ELEMENTS_PER_CELL : nat;
  CELLS_PER_EXT_BLOB : nat;
  BYTES_PER_CELL : nat;
  BYTES_PER_G1 : nat;
  BYTES_PER_G2 : nat
}.

(** The functions of the C library (and the one function of C's stdio)
    the bindings call, as functions from the memory they read to the
    return code and the memory they write.  A [const Blob *] argument is
    [None] for a NULL pointer; the [bool] of [compute_cells_and_proofs]
    tells whether the [proofs] pointer is non-NULL. *)
Record CLibrary : Type := {
  KZGSettings : Type;
  KZGSettings_zero : KZGSettings;
  FILE : Type;
  fopen_r : string -> option FILE;
  load_trusted_setup :
    seq byte -> nat -> seq byte -> nat -> C_KZG_RET * KZGSettings;
  load_trusted_setup_file : FILE -> C_KZG_RET * KZGSettings;
  free_trusted_setup : KZGSettings -> KZGSettings;
  blob_to_kzg_commitment :
    option Blob -> KZGSettings -> C_KZG_RET * KZGCommitment;
  compute_kzg_proof :
    option Blob -> Bytes32 -> KZGSettings -> C_KZG_RET * (KZGProof * Bytes32);
  compute_blob_kzg_proof :
    option Blob -> Bytes48 -> KZGSettings -> C_KZG_RET * KZGProof;
  verify_kzg_proof :
    Bytes48 -> Bytes32 -> Bytes32 -> Bytes48 -> KZGSettings -> C_KZG_RET * bool;
  verify_blob_kzg_proof :
    option Blob -> Bytes48 -> Bytes48 -> KZGSettings -> C_KZG_RET * bool;
  verify_blob_kzg_proof_batch :
    seq Blob -> seq Bytes48 -> seq Bytes48 -> nat -> KZGSettings ->
    C_KZG_RET * bool;
  compute_cells_and_proofs :
    bool -> option Blob -> KZGSettings -> C_KZG_RET * (seq Cell * seq KZGProof);
  cells_to_blob : seq Cell -> C_KZG_RET * Blob;
  recover_all_cells :
    seq uint64 -> seq Cell -> nat -> KZGSettings -> C_KZG_RET * seq Cell;
  verify_cell_proof :
    Bytes48 -> uint64 -> Cell -> Bytes48 -> KZGSettings -> C_KZG_RET * bool;
  verify_cell_proof_batch :
    seq Bytes48 -> nat -> seq uint64 -> seq uint64 -> seq Cell ->
    seq Bytes48 -> nat -> KZGSettings -> C_KZG_RET * bool
}.

Arguments load_trusted_setup_file : clear implicits.
Arguments free_trusted_setup : clear implicits.
Arguments blob_to_kzg_commitment : clear implicits.
Arguments compute_kzg_proof : clear implicits.
Arguments compute_blob_kzg_proof : clear implicits.
Arguments verify_kzg_proof : clear implicits.
Arguments verify_blob_kzg_proof : clear implicits.
Arguments verify_blob_kzg_proof_batch : clear implicits.
Arguments compute_cells_and_proofs : clear implicits.
Arguments recover_all_cells : clear implicits.
Arguments verify_cell_proof : clear implicits.
Arguments verify_cell_proof_batch : clear implicits.

(** The calls into the C library, as recorded in the state: the function
    and, where it takes one, the blob pointer it was given. *)
Inductive ccall : Type :=
| call_load_trusted_setup
| call_load_trusted_setup_file
| call_free_trusted_setup
| call_blob_to_kzg_commitment (blob : option Blob)
| call_compute_kzg_proof (blob : option Blob)
| call_compute_blob_kzg_proof (blob : option Blob)
| call_verify_kzg_proof
| call_verify_blob_kzg_proof (blob : option Blob)
| call_verify_blob_kzg_proof_batch
| call_compute_cells_and_proofs (blob : option Blob)
| call_cells_to_blob
| call_recover_all_cells
| call_verify_cell_proof
| call_verify_cell_proof_batch.

(** ** The Go package *)

Section Package.

Variable k : CMacros.
Variable lib : CLibrary.

(** *** Constants *)

Definition BytesPerBlob : nat := BYTES_PER_BLOB k.
Definition BytesPerCommitment : nat := BYTES_PER_COMMITMENT k.
Definition BytesPerFieldElement : nat := BYTES_PER_FIELD_ELEMENT k.
Definition BitsPerFieldElement : nat := BITS_PER_FIELD_ELEMENT k.
Definition BytesPerProof : nat := BYTES_PER_PROOF k.
Definition FieldElementsPerBlob : nat := FIELD_ELEMENTS_PER_BLOB k.
Definition FieldElementsPerCell : nat := FIELD_ELEMENTS_PER_CELL k.
Definition CellsPerExtBlob : nat := CELLS_PER_EXT_BLOB k.
Definition BytesPerCell : nat := BYTES_PER_CELL k.

(** *** Zero values of the array types *)

Definition zero_Bytes32 : Bytes32 := nseq 32 Byte.x00.
Definition zero_Bytes48 : Bytes48 := nseq 48 Byte.x00.
Definition zero_KZGCommitment : KZGCommitment := zero_Bytes48.
Definition zero_KZGProof : KZGProof := zero_Bytes48.
Definition zero_Blob : Blob := nseq BytesPerBlob Byte.x00.
Definition zero_Cell : Cell := nseq FieldElementsPerCell zero_Bytes32.
Definition zero_Cells : seq Cell := nseq CellsPerExtBlob zero_Cell.
Definition zero_Proofs : seq KZGProof := nseq CellsPerExtBlob zero_KZGProof.

(** *** Unmarshal functions *)

(** The body shared by the [UnmarshalText] methods of [Bytes32],
    [Bytes48] and [Blob], which differ in the length [len(b)] of the
    receiver only.  The receiver is passed in
    and returned: [hex.Decode] writes into it, also when it fails. *)
Definition UnmarshalText_array (len_b : nat) (b input : seq byte)
  : Result (seq byte * option error) :=
  let input := strip_0x input in
  if size input != 2 * len_b then Returned (b, Some ErrBadArgs) else
  match hex_Decode b input with
  | Panicked v => Panicked v
  | Returned (b', _, Some err) => Returned (b', Some err)
  | Returned (b', l, None) =>
      if l != len_b then Returned (b', Some ErrBadArgs)
      else Returned (b', None)
  end.

Definition Bytes32_UnmarshalText (b : Bytes32) (input : seq byte) :=
  UnmarshalText_array 32 b input.

Definition Bytes48_UnmarshalText (b : Bytes48) (input : seq byte) :=
  UnmarshalText_array 48 b input.

Definition Blob_UnmarshalText (b : Blob) (input : seq byte) :=
  UnmarshalText_array BytesPerBlob b input.

(** The slice expression [input[lo:hi]]; out of range it panics.  (Go
    compares [hi] with the capacity; every slice here has its capacity
    equal to its length.) *)
Definition slice (input : seq byte) (lo hi : nat) : Result (seq byte) :=
  if (lo <= hi) && (hi <= size input)
  then Returned (take (hi - lo) (drop lo input))
  else Panicked PanicIndexOutOfRange.

(** The loop of [UnmarshalText] on a [Cell], with [n] iterations left. *)
Fixpoint Cell_UnmarshalText_loop (n i offset : nat) (c : Cell)
    (input : seq byte) : Result (Cell * option error) :=
  if n is n'.+1 then
    let charsPerFieldElement := 2 * BytesPerFieldElement in
    if size c <= i then Panicked PanicIndexOutOfRange else
    match slice input offset (offset + charsPerFieldElement) with
    | Panicked v => Panicked v
    | Returned chunk =>
        match Bytes32_UnmarshalText (nth [::] c i) chunk with
        | Panicked v => Panicked v
        | Returned (ci, Some err) => Returned (set_nth [::] c i ci, Some err)
        | Returned (ci, None) =>
            Cell_UnmarshalText_loop n' i.+1 (offset + charsPerFieldElement)
              (set_nth [::] c i ci) input
        end
    end
  else Returned (c, None).

Definition Cell_UnmarshalText (c : Cell) (input : seq byte)
  : Result (Cell * option error) :=
  let charsPerCell := 2 * BytesPerCell in
  let input := strip_0x input in
  if size input != charsPerCell then Returned (c, Some ErrBadArgs) else
  Cell_UnmarshalText_loop FieldElementsPerCell 0 0 c input.

(** *** Package state *)

(** The package-level variables [loaded] and [settings], and the calls
    made into the C library so far. *)
Record State : Type := {
  loaded : bool;
  settings : KZGSettings lib;
  ccalls : seq ccall
}.

(** The state at program start: [loaded = false],
    [settings = C.KZGSettings{}]. *)
Definition initial_State : State :=
  {| loaded := false; settings := KZGSettings_zero lib; ccalls := [::] |}.

(** Go code that reads and writes the package state, and may panic. *)
Definition M (A : Type) : Type := State -> Result (A * State).

Definition ret {A} (a : A) : M A := fun st => Returned (a, st).

Definition bind {A B} (m : M A) (f : A -> M B) : M B :=
  fun st =>
    match m st with
    | Panicked v => Panicked v
    | Returned (a, st') => f a st'
    end.

Definition panic {A} (v : panic_value) : M A := fun _ => Panicked v.

Definition get_loaded : M bool := fun st => Returned (loaded st, st).

Definition set_loaded (b : bool) : M unit :=
  fun st =>
    Returned (tt, {| loaded := b; settings := settings st;
                     ccalls := ccalls st |}).

(** A call of a C function that reads [settings]. *)
Definition C_call {A} (c : ccall) (f : KZGSettings lib -> A) : M A :=
  fun st =>
    Returned (f (settings st),
              {| loaded := loaded st; settings := settings st;
                 ccalls := rcons (ccalls st) c |}).

(** A call of a C function that writes [settings]. *)
Definition C_call_out {A} (c : ccall)
    (f : KZGSettings lib -> A * KZGSettings lib) : M A :=
  fun st =>
    let: (a, s') := f (settings st) in
    Returned (a, {| loaded := loaded st; settings := s';
                    ccalls := rcons (ccalls st) c |}).

Local Notation "x <- m ;; f" := (bind m (fun x => f))
  (at level 61, m at next level, right associativity,
   format "'[v' x  <-  m  ;;  '/' f ']'").
Local Notation "' pat <- m ;; f" := (bind m (fun x => let: pat := x in f))
  (at level 61, pat pattern, m at next level, right associativity,
   format "'[v' ' pat  <-  m  ;;  '/' f ']'").

Definition not_loaded_msg : panic_value :=
  PanicString "trusted setup isn't loaded".
Definition already_loaded_msg : panic_value :=
  PanicString "trusted setup is already loaded".

(** *** Interface functions *)

Definition LoadTrustedSetup (g1Bytes g2Bytes : seq byte) : M (option error) :=
  is_loaded <- get_loaded ;;
  if is_loaded then panic already_loaded_msg else
  if size g1Bytes %% BYTES_PER_G1 k != 0 then
    panic (PanicSprintf "len(g1Bytes) is not a multiple of %v" (BYTES_PER_G1 k))
  else
  if size g2Bytes %% BYTES_PER_G2 k != 0 then
    panic (PanicSprintf "len(g2Bytes) is not a multiple of %v" (BYTES_PER_G2 k))
  else
  let numG1Elements := size g1Bytes %/ BYTES_PER_G1 k in
  let numG2Elements := size g2Bytes %/ BYTES_PER_G2 k in
  r <- C_call_out call_load_trusted_setup
         (fun _ => load_trusted_setup lib g1Bytes numG1Elements
                     g2Bytes numG2Elements) ;;
  if r == C_KZG_OK then _ <- set_loaded true ;; ret None
  else ret (Some (makeErrorFromRet r)).

Definition LoadTrustedSetupFile (trustedSetupFile : string) : M (option error) :=
  is_loaded <- get_loaded ;;
  if is_loaded then panic already_loaded_msg else
  match fopen_r lib trustedSetupFile with
  | None => panic (PanicString "error reading trusted setup")
  | Some fp =>
      r <- C_call_out call_load_trusted_setup_file
             (fun _ => load_trusted_setup_file lib fp) ;;
      if r == C_KZG_OK then _ <- set_loaded true ;; ret None
      else ret (Some (makeErrorFromRet r))
  end.

Definition FreeTrustedSetup : M unit :=
  is_loaded <- get_loaded ;;
  if ~~ is_loaded then panic not_loaded_msg else
  _ <- C_call_out call_free_trusted_setup
         (fun s => (tt, free_trusted_setup lib s)) ;;
  set_loaded false.

Definition BlobToKZGCommitment (blob : option Blob)
  : M (KZGCommitment * option error) :=
  is_loaded <- get_loaded ;;
  if ~~ is_loaded then panic not_loaded_msg else
  if blob is None then ret (zero_KZGCommitment, Some ErrBadArgs) else
  '(r, commitment) <- C_call (call_blob_to_kzg_commitment blob)
                        (blob_to_kzg_commitment lib blob) ;;
  if r != C_KZG_OK then ret (zero_KZGCommitment, Some (makeErrorFromRet r))
  else ret (commitment, None).

Definition ComputeKZGProof (blob : option Blob) (zBytes : Bytes32)
  : M (KZGProof * Bytes32 * option error) :=
  is_loaded <- get_loaded ;;
  if ~~ is_loaded then panic not_loaded_msg else
  if blob is None then ret (zero_KZGProof, zero_Bytes32, Some ErrBadArgs) else
  '(r, (proof, y)) <- C_call (call_compute_kzg_proof blob)
                        (compute_kzg_proof lib blob zBytes) ;;
  if r != C_KZG_OK
  then ret (zero_KZGProof, zero_Bytes32, Some (makeErrorFromRet r))
  else ret (proof, y, None).

Definition ComputeBlobKZGProof (blob : option Blob) (commitmentBytes : Bytes48)
  : M (KZGProof * option error) :=
  is_loaded <- get_loaded ;;
  if ~~ is_loaded then panic not_loaded_msg else
  if blob is None then ret (zero_KZGProof, Some ErrBadArgs) else
  '(r, proof) <- C_call (call_compute_blob_kzg_proof blob)
                   (compute_blob_kzg_proof lib blob commitmentBytes) ;;
  if r != C_KZG_OK then ret (zero_KZGProof, Some (makeErrorFromRet r))
  else ret (proof, None).

Definition VerifyKZGProof (commitmentBytes : Bytes48) (zBytes yBytes : Bytes32)
    (proofBytes : Bytes48) : M (bool * option error) :=
  is_loaded <- get_loaded ;;
  if ~~ is_loaded then panic not_loaded_msg else
  '(r, result) <- C_call call_verify_kzg_proof
                    (verify_kzg_proof lib commitmentBytes zBytes yBytes
                       proofBytes) ;;
  if r != C_KZG_OK then ret (false, Some (makeErrorFromRet r))
  else ret (result, None).

Definition VerifyBlobKZGProof (blob : option Blob)
    (commitmentBytes proofBytes : Bytes48) : M (bool * option error) :=
  is_loaded <- get_loaded ;;
  if ~~ is_loaded then panic not_loaded_msg else
  if blob is None then ret (false, Some ErrBadArgs) else
  '(r, result) <- C_call (call_verify_blob_kzg_proof blob)
                    (verify_blob_kzg_proof lib blob commitmentBytes
                       proofBytes) ;;
  if r != C_KZG_OK then ret (false, Some (makeErrorFromRet r))
  else ret (result, None).

Definition VerifyBlobKZGProofBatch (blobs : seq Blob)
    (commitmentsBytes proofsBytes : seq Bytes48) : M (bool * option error) :=
  is_loaded <- get_loaded ;;
  if ~~ is_loaded then panic not_loaded_msg else
  if (size blobs != size commitmentsBytes) || (size blobs != size proofsBytes)
  then ret (false, Some ErrBadArgs) else
  '(r, result) <- C_call call_verify_blob_kzg_proof_batch
                    (verify_blob_kzg_proof_batch lib blobs commitmentsBytes
                       proofsBytes (size blobs)) ;;
  if r != C_KZG_OK then ret (false, Some (makeErrorFromRet r))
  else ret (result, None).

Definition ComputeCells (blob : option Blob) : M (seq Cell * option error) :=
  is_loaded <- get_loaded ;;
  if ~~ is_loaded then panic not_loaded_msg else
  '(r, (cells, _)) <- C_call (call_compute_cells_and_proofs blob)
                        (compute_cells_and_proofs lib false blob) ;;
  if r != C_KZG_OK then ret (zero_Cells, Some (makeErrorFromRet r))
  else ret (cells, None).

Definition ComputeCellsAndProofs (blob : option Blob)
  : M (seq Cell * seq KZGProof * option error) :=
  is_loaded <- get_loaded ;;
  if ~~ is_loaded then panic not_loaded_msg else
  '(r, (cells, proofs)) <- C_call (call_compute_cells_and_proofs blob)
                             (compute_cells_and_proofs lib true blob) ;;
  if r != C_KZG_OK
  then ret (zero_Cells, zero_Proofs, Some (makeErrorFromRet r))
  else ret (cells, proofs, None).

Definition CellsToBlob (cells : seq Cell) : M (Blob * option error) :=
  is_loaded <- get_loaded ;;
  if ~~ is_loaded then panic not_loaded_msg else
  '(r, blob) <- C_call call_cells_to_blob
                  (fun _ => cells_to_blob lib cells) ;;
  if r != C_KZG_OK then ret (zero_Blob, Some (makeErrorFromRet r))
  else ret (blob, None).

Definition RecoverAllCells (cellIds : seq uint64) (cells : seq Cell)
  : M (seq Cell * option error) :=
  is_loaded <- get_loaded ;;
  if ~~ is_loaded then panic not_loaded_msg else
  if size cellIds != size cells then ret (zero_Cells, Some ErrBadArgs) else
  '(r, recovered) <- C_call call_recover_all_cells
                       (recover_all_cells lib cellIds cells (size cells)) ;;
  if r != C_KZG_OK then ret (zero_Cells, Some (makeErrorFromRet r))
  else ret (recovered, None).

Definition VerifyCellProof (commitmentBytes : Bytes48) (cellId : uint64)
    (cell : Cell) (proofBytes : Bytes48) : M (bool * option error) :=
  is_loaded <- get_loaded ;;
  if ~~ is_loaded then panic not_loaded_msg else
  '(r, result) <- C_call call_verify_cell_proof
                    (verify_cell_proof lib commitmentBytes cellId cell
                       proofBytes) ;;
  if r != C_KZG_OK then ret (false, Some (makeErrorFromRet r))
  else ret (result, None).

Definition VerifyCellProofBatch (commitmentsBytes : seq Bytes48)
    (rowIndices columnIndices : seq uint64) (cells : seq Cell)
    (proofsBytes : seq Bytes48) : M (bool * option error) :=
  is_loaded <- get_loaded ;;
  if ~~ is_loaded then panic not_loaded_msg else
  let cellCount := size cells in
  if [|| size rowIndices != cellCount, size columnIndices != cellCount
       | size proofsBytes != cellCount]
  then ret (false, Some ErrBadArgs) else
  '(r, result) <- C_call call_verify_cell_proof_batch
                    (verify_cell_proof_batch lib commitmentsBytes
                       (size commitmentsBytes) rowIndices columnIndices cells
                       proofsBytes (size cells)) ;;
  if r != C_KZG_OK then ret (false, Some (makeErrorFromRet r))
  else ret (result, None).

End Package.

Arguments LoadTrustedSetup : clear implicits.
Arguments LoadTrustedSetupFile : clear implicits.
Arguments FreeTrustedSetup : clear implicits.
Arguments BlobToKZGCommitment : clear implicits.
Arguments ComputeKZGProof : clear implicits.
Arguments ComputeBlobKZGProof : clear implicits.
Arguments VerifyKZGProof : clear implicits.
Arguments VerifyBlobKZGProof : clear implicits.
Arguments VerifyBlobKZGProofBatch : clear implicits.
Arguments ComputeCells : clear implicits.
Arguments ComputeCellsAndProofs : clear implicits.
Arguments CellsToBlob : clear implicits.
Arguments RecoverAllCells : clear implicits.
Arguments VerifyCellProof : clear implicits.
Arguments VerifyCellProofBatch : clear implicits.

(** ** The public interface as a whole *)

(** To speak of every interface function at once, a call of one of them is
    a value: the function and its arguments. *)
Inductive call : Type :=
| Call_LoadTrustedSetup (g1Bytes g2Bytes : seq byte)
| Call_LoadTrustedSetupFile (trustedSetupFile : string)
| Call_FreeTrustedSetup
| Call_BlobToKZGCommitment (blob : option Blob)
| Call_ComputeKZGProof (blob : option Blob) (zBytes : Bytes32)
| Call_ComputeBlobKZGProof (blob : option Blob) (commitmentBytes : Bytes48)
| Call_VerifyKZGProof (commitmentBytes : Bytes48) (zBytes yBytes : Bytes32)
    (proofBytes : Bytes48)
| Call_VerifyBlobKZGProof (blob : option Blob)
    (commitmentBytes proofBytes : Bytes48)
| Call_VerifyBlobKZGProofBatch (blobs : seq Blob)
    (commitmentsBytes proofsBytes : seq Bytes48)
| Call_ComputeCells (blob : option Blob)
| Call_ComputeCellsAndProofs (blob : option Blob)
| Call_CellsToBlob (cells : seq Cell)
| Call_RecoverAllCells (cellIds : seq uint64) (cells : seq Cell)
| Call_VerifyCellProof (commitmentBytes : Bytes48) (cellId : uint64)
    (cell : Cell) (proofBytes : Bytes48)
| Call_VerifyCellProofBatch (commitmentsBytes : seq Bytes48)
    (rowIndices columnIndices : seq uint64) (cells : seq Cell)
    (proofsBytes : seq Bytes48).

(** The two functions that construct the trusted setup. *)
Definition is_loader (c : call) : bool :=
  match c with
  | Call_LoadTrustedSetup _ _ | Call_LoadTrustedSetupFile _ => true
  | _ => false
  end.

(** What an interface function returns besides its [error]. *)
Inductive value : Type :=
| NoValue
| Value_Bytes48 (x : Bytes48)
| Value_ProofAndY (proof : KZGProof) (y : Bytes32)
| Value_bool (b : bool)
| Value_Cells (cells : seq Cell)
| Value_CellsAndProofs (cells : seq Cell) (proofs : seq KZGProof)
| Value_Blob (blob : Blob).

Section Invoke.

Variable k : CMacros.
Variable lib : CLibrary.

Definition fmap {A B} (f : A -> B) (m : M lib A) : M lib B :=
  bind m (fun a => ret (f a)).

Definition invoke (c : call) : M lib (value * option error) :=
  match c with
  | Call_LoadTrustedSetup g1 g2 =>
      fmap (fun e => (NoValue, e)) (LoadTrustedSetup k lib g1 g2)
  | Call_LoadTrustedSetupFile f =>
      fmap (fun e => (NoValue, e)) (LoadTrustedSetupFile lib f)
  | Call_FreeTrustedSetup =>
      fmap (fun _ => (NoValue, None)) (FreeTrustedSetup lib)
  | Call_BlobToKZGCommitment blob =>
      fmap (fun r => (Value_Bytes48 r.1, r.2)) (BlobToKZGCommitment lib blob)
  | Call_ComputeKZGProof blob z =>
      fmap (fun r => (Value_ProofAndY r.1.1 r.1.2, r.2))
        (ComputeKZGProof lib blob z)
  | Call_ComputeBlobKZGProof blob c =>
      fmap (fun r => (Value_Bytes48 r.1, r.2)) (ComputeBlobKZGProof lib blob c)
  | Call_VerifyKZGProof c z y p =>
      fmap (fun r => (Value_bool r.1, r.2)) (VerifyKZGProof lib c z y p)
  | Call_VerifyBlobKZGProof blob c p =>
      fmap (fun r => (Value_bool r.1, r.2)) (VerifyBlobKZGProof lib blob c p)
  | Call_VerifyBlobKZGProofBatch blobs cs ps =>
      fmap (fun r => (Value_bool r.1, r.2))
        (VerifyBlobKZGProofBatch lib blobs cs ps)
  | Call_ComputeCells blob =>
      fmap (fun r => (Value_Cells r.1, r.2)) (ComputeCells k lib blob)
  | Call_ComputeCellsAndProofs blob =>
      fmap (fun r => (Value_CellsAndProofs r.1.1 r.1.2, r.2))
        (ComputeCellsAndProofs k lib blob)
  | Call_CellsToBlob cells =>
      fmap (fun r => (Value_Blob r.1, r.2)) (CellsToBlob k lib cells)
  | Call_RecoverAllCells ids cells =>
      fmap (fun r => (Value_Cells r.1, r.2)) (RecoverAllCells k lib ids cells)
  | Call_VerifyCellProof c id cell p =>
      fmap (fun r => (Value_bool r.1, r.2)) (VerifyCellProof lib c id cell p)
  | Call_VerifyCellProofBatch cs rows cols cells ps =>
      fmap (fun r => (Value_bool r.1, r.2))
        (VerifyCellProofBatch lib cs rows cols cells ps)
  end.

(** Two package states hold the same setup when their [loaded] flags
    agree and, if a setup is loaded, their [settings] are equal.  The
    record of past C calls, and what [settings] holds while no setup is
    loaded, are not part of it. *)
Definition same_setup (s1 s2 : State lib) : Prop :=
  loaded s1 = loaded s2 /\ (loaded s1 -> settings s1 = settings s2).

(** Two outcomes agree when both panic with the same value, or both
    return the same results in states that hold the same setup. *)
Definition same_outcome {A} (r1 r2 : Result (A * State lib)) : Prop :=
  match r1, r2 with
  | Panicked v1, Panicked v2 => v1 = v2
  | Returned (a1, s1), Returned (a2, s2) => a1 = a2 /\ same_setup s1 s2
  | _, _ => False
  end.

(** The three typed errors of the taxonomy. *)
Definition typed_error (e : error) : bool :=
  match e with
  | ErrBadArgs | ErrError | ErrMalloc => true
  | _ => false
  end.

(** The return codes of the enumeration. *)
Definition known_ret (r : C_KZG_RET) : bool :=
  [|| r == C_KZG_OK, r == C_KZG_BADARGS, r == C_KZG_ERROR | r == C_KZG_MALLOC].

End Invoke.

Arguments invoke : clear implicits.

(** The zero values an interface function returns beside a non-nil
    [error]. *)
Definition zero_value (k : CMacros) (c : call) : value :=
  match c with
  | Call_LoadTrustedSetup _ _ | Call_LoadTrustedSetupFile _
  | Call_FreeTrustedSetup => NoValue
  | Call_BlobToKZGCommitment _ => Value_Bytes48 zero_KZGCommitment
  | Call_ComputeKZGProof _ _ => Value_ProofAndY zero_KZGProof zero_Bytes32
  | Call_ComputeBlobKZGProof _ _ => Value_Bytes48 zero_KZGProof
  | Call_VerifyKZGProof _ _ _ _ | Call_VerifyBlobKZGProof _ _ _
  | Call_VerifyBlobKZGProofBatch _ _ _ | Call_VerifyCellProof _ _ _ _
  | Call_VerifyCellProofBatch _ _ _ _ _ => Value_bool false
  | Call_ComputeCells _ | Call_RecoverAllCells _ _ => Value_Cells (zero_Cells k)
  | Call_ComputeCellsAndProofs _ =>
      Value_CellsAndProofs (zero_Cells k) (zero_Proofs k)
  | Call_CellsToBlob _ => Value_Blob (zero_Blob k)
  end.

(** The functions that write the package variables: the two loaders and
    [FreeTrustedSetup]. *)
Definition writes_setup (c : call) : bool :=
  is_loader c || (if c is Call_FreeTrustedSetup then true else false).

(** ** Hexadecimal text *)

(** The hexadecimal digits ["0123456789abcdef"] and
    ["0123456789ABCDEF"], as bytes. *)
Definition lower_hex_digits : seq byte :=
  [:: Byte.x30; Byte.x31; Byte.x32; Byte.x33; Byte.x34; Byte.x35; Byte.x36;
      Byte.x37; Byte.x38; Byte.x39; Byte.x61; Byte.x62; Byte.x63; Byte.x64;
      Byte.x65; Byte.x66].
Definition upper_hex_digits : seq byte :=
  [:: Byte.x30; Byte.x31; Byte.x32; Byte.x33; Byte.x34; Byte.x35; Byte.x36;
      Byte.x37; Byte.x38; Byte.x39; Byte.x41; Byte.x42; Byte.x43; Byte.x44;
      Byte.x45; Byte.x46].

Definition is_hex_digit (c : byte) : bool :=
  (c \in lower_hex_digits) || (c \in upper_hex_digits).

(** The value of a hexadecimal digit: its position in the digit string. *)
Definition hex_digit_value (c : byte) : nat :=
  if c \in lower_hex_digits then index c lower_hex_digits
  else index c upper_hex_digits.

(** The bytes a hexadecimal text denotes: one byte for each two digits,
    the high digit first. *)
Fixpoint hex_bytes (s : seq byte) : seq byte :=
  if s is p :: q :: s' then
    byte_of_nat (16 * hex_digit_value p + hex_digit_value q) :: hex_bytes s'
  else [::].

(** The number a text of hexadecimal digits denotes, most significant
    digit first, with the digit values of [fromHexChar]. *)
Definition hex_value (s : seq byte) : nat :=
  foldl (fun acc c => acc * 16 + odflt 0 (fromHexChar c)) 0 s.

(** The position of the first character of a text that is not a
    hexadecimal digit. *)
Definition first_bad_character (s : seq byte) : nat :=
  find (fun c => fromHexChar c == None) s.

(** ** What [UnmarshalText] does *)

(** The behaviour of an [UnmarshalText] method with receiver [b] and
    outcome [out] on [input], for a target of [nbytes] bytes that holds the
    decoded bytes as [decoded].  [inner_0x] tells of a text of the right
    length that holds a character which is not a hexadecimal digit whether
    the nested call that is the first to meet such a character finds a
    ["0x"] prefix of its own; the error is then [ErrBadArgs], and otherwise
    [hex.InvalidByteError] for the first such character of the text. *)
Definition UnmarshalText_spec (R : Type) (nbytes : nat)
    (decoded : seq byte -> R) (inner_0x : seq byte -> bool)
    (b : R) (input : seq byte) (out : Result (R * option error)) : Prop :=
  let s := strip_0x input in
  [/\ (exists b', out = Returned (b', None)) <->
        (size s = 2 * nbytes /\ all is_hex_digit s),
      forall b', out = Returned (b', None) -> b' = decoded (hex_bytes s),
      size s <> 2 * nbytes -> out = Returned (b, Some ErrBadArgs) &
      size s = 2 * nbytes -> ~~ all is_hex_digit s ->
        exists b',
          out = Returned
                  (b', Some (if inner_0x s then ErrBadArgs
                             else HexInvalidByteError
                                    (nth Byte.x00 s (first_bad_character s))))].

(** The 64-character texts of the field elements of a cell. *)
Definition field_element_texts (n : nat) (s : seq byte) : seq (seq byte) :=
  reshape (nseq n 64) s.

(** The first of the texts of the field elements of a cell that holds a
    character which is not a hexadecimal digit. *)
Definition first_bad_field_element_text (n : nat) (s : seq byte) : seq byte :=
  let texts := field_element_texts n s in
  nth [::] texts (find (fun t => ~~ all is_hex_digit t) texts).

(** A field element of a cell has 32 bytes. *)
Definition has_size32 : pred (seq byte) := fun x => size x == 32.

(** ** Field elements as bytes *)

(** The integer a sequence of bytes denotes, most significant byte first. *)
Definition nat_of_bytes (bs : seq byte) : nat :=
  foldl (fun acc b => acc * 256 + byte_val b) 0 bs.

(** The [len] low-order bytes of an integer, most significant byte first. *)
Fixpoint bytes_of_nat (len n : nat) : seq byte :=
  if len is len'.+1 then rcons (bytes_of_nat len' (n %/ 256)) (byte_of_nat n)
  else [::].

(** ** Polynomials in evaluation form *)

Section EvaluationForm.

Local Open Scope ring_scope.

Variable F : fieldType.
Implicit Types (xs ys : seq F) (x : F) (q : {poly F}).

(** The Lagrange basis polynomial of the point [x] among the points
    [xs]: it is 1 at [x] and 0 at the other points. *)
Definition lagrange_basis xs x : {poly F} :=
  \prod_(c <- xs | c != x) ((x - c)^-1 *: ('X - c%:P)).

(** The polynomial of degree below [size xs] that takes the value
    [ys`_i] at the point [xs`_i]. *)
Definition interpolate xs ys : {poly F} :=
  \sum_(i < size xs) ys`_i *: lagrange_basis xs xs`_i.

Variable N : nat.
Variable omega : F.

(** The evaluation domain: the [N]-th roots of unity, as the even powers
    of a primitive [2 N]-th root of unity [omega]. *)
Definition roots_of_unity : seq F :=
  [seq omega ^+ (2 * i)%N | i <- iota 0 N].

(** The coset-extended domain, of size [2 N]: the evaluation domain
    followed by its coset by [omega]. *)
Definition extended_domain : seq F :=
  roots_of_unity ++ [seq omega * x | x <- roots_of_unity].

(** Barycentric evaluation, at [z], of the polynomial in evaluation form
    [ys] over the roots of unity [rs]: a point of the domain is looked
    up. *)
Definition barycentric_eval (rs ys : seq F) (z : F) : F :=
  if z \in rs then ys`_(index z rs)
  else (z ^+ size rs - 1) / (size rs)%:R
       * \sum_(i < size rs) ys`_i * rs`_i / (z - rs`_i).

(** Synthetic division of the polynomial with coefficients [cs] (constant
    coefficient first) by [X - z]: the coefficients of the quotient, and
    the remainder. *)
Fixpoint synthetic_division (cs : seq F) (z : F) : seq F * F :=
  if cs is c :: cs' then
    let: (q, r) := synthetic_division cs' z in (r :: q, c + z * r)
  else ([::], 0).

(** The quotient [(p(X) - y) / (X - z)]. *)
Definition quotient_poly (p : {poly F}) (y z : F) : {poly F} :=
  Poly (synthetic_division (p - y%:P) z).1.

End EvaluationForm.

(** ** The cryptographic core, from its specification *)

Section Pairing.

Local Open Scope ring_scope.

Variable Fr : fieldType.

(** Modelled from the spec: the pairing-friendly curve is not part of the
    Go file.  The spec names two pairing groups with their generators, a
    target group, the pairing, and the 48-byte compressed encoding of the
    points of the first group; the groups are modules over the scalar
    field, written additively. *)
Record PairingGroups : Type := {
  G1 : lmodType Fr;
  G2 : lmodType Fr;
  GT : lmodType Fr;
  pairing : G1 -> G2 -> GT;
  g1 : G1;
  g2 : G2;
  compress : G1 -> Bytes48;
  decompress : Bytes48 -> option G1
}.

(** The pairing is bilinear, and a compressed point decodes to itself. *)
Record pairing_laws (c : PairingGroups) : Prop := {
  pairing_linear_l : forall (a : Fr) (P Q : G1 c) (R : G2 c),
    pairing (a *: P + Q) R = a *: pairing P R + pairing Q R;
  pairing_linear_r : forall (a : Fr) (P : G1 c) (Q R : G2 c),
    pairing P (a *: Q + R) = a *: pairing P Q + pairing P R;
  decompressK : pcancel (@compress c) (@decompress c)
}.

End Pairing.

Section Core.

Local Open Scope ring_scope.

(** The modulus of the scalar field. *)
Variable p : nat.
Local Notation Fr := 'F_p.

(** [FIELD_ELEMENTS_PER_BLOB] and [FIELD_ELEMENTS_PER_CELL]. *)
Variables (N cell_size : nat).

(** A primitive root of unity of order [2 N], which fixes the evaluation
    domain and its extension. *)
Variable omega : Fr.

Variable curve : PairingGroups Fr.

(** Modelled from the spec: the trusted setup, which the Go file holds as
    the opaque [C.KZGSettings].  It holds the powers of the secret in both
    groups and the precomputed roots of the base and extended domains. *)
Record Setup : Type := {
  g1_powers : seq (G1 curve);
  g2_powers : seq (G2 curve);
  fft_roots : seq Fr;
  fft_ext_roots : seq Fr
}.

Definition empty_Setup : Setup :=
  {| g1_powers := [::]; g2_powers := [::]; fft_roots := [::];
     fft_ext_roots := [::] |}.

(** Modelled from the spec: what the spec leaves to collaborators of the
    core or leaves open: the two Fiat-Shamir transforms (the evaluation
    point of a blob proof, the weights of a batch) and the loader of the
    trusted setup with the files it reads. *)
Record Collaborators : Type := {
  fiat_shamir_point : Blob -> Bytes48 -> Fr;
  fiat_shamir_weights : seq Blob -> seq Bytes48 -> seq Bytes48 -> seq Fr;
  read_file : string -> option (seq byte);
  parse_trusted_setup : seq byte -> nat -> seq byte -> nat -> option Setup;
  parse_trusted_setup_file : seq byte -> option Setup;
  bytes_per_g2 : nat
}.

Variable env : Collaborators.

(** *** Field elements *)

(** Modelled from the spec (FieldElement): 32 bytes are a field element
    iff their integer value is below the modulus. *)
Definition fr_of_bytes (bs : Bytes32) : option Fr :=
  if (nat_of_bytes bs < p)%N then Some (inZp (nat_of_bytes bs)) else None.

Definition bytes_of_fr (x : Fr) : Bytes32 := bytes_of_nat 32 x.

(** All of a sequence of encodings, or none. *)
Fixpoint decode_all (bss : seq Bytes32) : option (seq Fr) :=
  if bss is bs :: bss' then
    if fr_of_bytes bs is Some x then omap (cons x) (decode_all bss') else None
  else Some [::].

(** Modelled from the spec (Blob): [N] field elements of 32 bytes. *)
Definition blob_evaluations (blob : Blob) : option (seq Fr) :=
  if size blob != (N * 32)%N then None
  else decode_all (reshape (nseq N 32) blob).

(** A valid blob: of the right length, every field element canonical. *)
Definition valid_Blob (blob : Blob) : bool :=
  (size blob == (N * 32)%N)
  && all (fun bs => nat_of_bytes bs < p)%N (reshape (nseq N 32) blob).

(** A canonical 32-byte field element. *)
Definition canonical (bs : Bytes32) : bool :=
  (size bs == 32%N) && (nat_of_bytes bs < p)%N.

(** *** Cells *)

(** [CELLS_PER_EXT_BLOB = 2 * FIELD_ELEMENTS_PER_BLOB /
    FIELD_ELEMENTS_PER_CELL]. *)
Definition cells_per_ext_blob : nat := (2 * N) %/ cell_size.

(** The partition of a vector over the extended domain into contiguous
    cells. *)
Definition cells_of (T : Type) (v : seq T) : seq (seq T) :=
  reshape (nseq cells_per_ext_blob cell_size) v.

(** The points of the extended domain that the cell at [position]
    holds. *)
Definition cell_points (ext_roots : seq Fr) (position : nat) : seq Fr :=
  take cell_size (drop (position * cell_size) ext_roots).

(** The cells of a polynomial: its evaluations over the extended domain,
    partitioned and encoded. *)
Definition cells_of_polynomial (ext_roots : seq Fr) (q : {poly Fr})
  : seq Cell :=
  cells_of [seq bytes_of_fr q.[x] | x <- ext_roots].

(** A well-sized cell. *)
Definition cell_sized (c : Cell) : bool := size c == cell_size.

(** The indices into the extended domain of the cells at [ids]. *)
Definition cell_indices (ids : seq nat) : seq nat :=
  flatten [seq iota (id * cell_size)%N cell_size | id <- ids].

(** *** Commitments *)

(** Multi-scalar multiplication of the coefficients of a polynomial
    against the powers of the secret. *)
Definition commit_g1 (s : Setup) (q : {poly Fr}) : G1 curve :=
  \sum_(i < size q) q`_i *: (g1_powers s)`_i.

Definition commit_g2 (s : Setup) (q : {poly Fr}) : G2 curve :=
  \sum_(i < size q) q`_i *: (g2_powers s)`_i.

(** The pairing identity of an evaluation proof:
    [e(commitment - [y], g2) == e(proof, [tau] - [z])]. *)
Definition pairing_check (s : Setup) (C : G1 curve) (z y : Fr)
    (P : G1 curve) : bool :=
  pairing (C - y *: g1 curve) (g2 curve)
  == pairing P ((g2_powers s)`_1 - z *: g2 curve).

(** *** The operations of the library *)

Definition zero48 : Bytes48 := nseq 48 Byte.x00.
Definition zero32 : Bytes32 := nseq 32 Byte.x00.

(** Modelled from the spec (4.1, commit): the values of the blob are the
    Lagrange-basis coefficients, over the evaluation domain, of the
    polynomial that is committed against the powers of the secret. *)
Definition spec_blob_to_kzg_commitment (blob : option Blob) (s : Setup)
  : C_KZG_RET * KZGCommitment :=
  match obind blob_evaluations blob with
  | Some ys =>
      (C_KZG_OK, compress (commit_g1 s (interpolate (fft_roots s) ys)))
  | None => (C_KZG_BADARGS, zero48)
  end.

(** Modelled from the spec (4.2, proveAt). *)
Definition prove_at (s : Setup) (ys : seq Fr) (z : Fr) : G1 curve * Fr :=
  let y := barycentric_eval (fft_roots s) ys z in
  let q := quotient_poly (interpolate (fft_roots s) ys) y z in
  (commit_g1 s q, y).

Definition spec_compute_kzg_proof (blob : option Blob) (zBytes : Bytes32)
    (s : Setup) : C_KZG_RET * (KZGProof * Bytes32) :=
  match obind blob_evaluations blob, fr_of_bytes zBytes with
  | Some ys, Some z =>
      let: (proof, y) := prove_at s ys z in
      (C_KZG_OK, (compress proof, bytes_of_fr y))
  | _, _ => (C_KZG_BADARGS, (zero48, zero32))
  end.

(** Modelled from the spec (4.2, proveBlob). *)
Definition spec_compute_blob_kzg_proof (blob : option Blob)
    (commitmentBytes : Bytes48) (s : Setup) : C_KZG_RET * KZGProof :=
  match blob, obind blob_evaluations blob, decompress curve commitmentBytes with
  | Some b, Some ys, Some _ =>
      let z := fiat_shamir_point env b commitmentBytes in
      (C_KZG_OK, compress (prove_at s ys z).1)
  | _, _, _ => (C_KZG_BADARGS, zero48)
  end.

(** Modelled from the spec (4.3, verifyAt). *)
Definition spec_verify_kzg_proof (commitmentBytes : Bytes48)
    (zBytes yBytes : Bytes32) (proofBytes : Bytes48) (s : Setup)
  : C_KZG_RET * bool :=
  match decompress curve commitmentBytes, fr_of_bytes zBytes,
        fr_of_bytes yBytes, decompress curve proofBytes with
  | Some C, Some z, Some y, Some P => (C_KZG_OK, pairing_check s C z y P)
  | _, _, _, _ => (C_KZG_BADARGS, false)
  end.

(** A blob with its commitment and proof, decoded: the Fiat-Shamir point,
    the value of the blob's polynomial there, and the two points. *)
Definition decode_blob_proof (s : Setup) (b : Blob) (c pi : Bytes48)
  : option (Fr * Fr * G1 curve * G1 curve) :=
  match blob_evaluations b, decompress curve c, decompress curve pi with
  | Some ys, Some C, Some P =>
      let z := fiat_shamir_point env b c in
      Some (z, barycentric_eval (fft_roots s) ys z, C, P)
  | _, _, _ => None
  end.

(** Modelled from the spec (4.3, verifyBlob). *)
Definition spec_verify_blob_kzg_proof (blob : option Blob)
    (commitmentBytes proofBytes : Bytes48) (s : Setup) : C_KZG_RET * bool :=
  match obind (fun b => decode_blob_proof s b commitmentBytes proofBytes) blob
  with
  | Some (z, y, C, P) => (C_KZG_OK, pairing_check s C z y P)
  | None => (C_KZG_BADARGS, false)
  end.

Fixpoint decode_batch (s : Setup) (blobs : seq Blob) (cs ps : seq Bytes48)
  : option (seq (Fr * Fr * G1 curve * G1 curve)) :=
  match blobs, cs, ps with
  | b :: blobs', c :: cs', pi :: ps' =>
      if decode_blob_proof s b c pi is Some t
      then omap (cons t) (decode_batch s blobs' cs' ps')
      else None
  | _, _, _ => Some [::]
  end.

(** Modelled from the spec (4.4, verifyBlobBatch): the weighted linear
    combination of the pairing equations of the batch, checked with one
    pairing on each side. *)
Definition spec_verify_blob_kzg_proof_batch (blobs : seq Blob)
    (cs ps : seq Bytes48) (n : nat) (s : Setup) : C_KZG_RET * bool :=
  match decode_batch s (take n blobs) (take n cs) (take n ps) with
  | Some ts =>
      let r := fiat_shamir_weights env blobs cs ps in
      let lhs :=
        \sum_(i < size ts)
          let: (z, y, C, P) := nth (0, 0, 0, 0) ts i in
          r`_i *: (C - y *: g1 curve + z *: P) in
      let rhs :=
        \sum_(i < size ts)
          let: (_, _, _, P) := nth (0, 0, 0, 0) ts i in r`_i *: P in
      (C_KZG_OK,
       pairing lhs (g2 curve) == pairing rhs (g2_powers s)`_1)
  | None => (C_KZG_BADARGS, false)
  end.

(** The vanishing polynomial of a set of points. *)
Definition vanishing (xs : seq Fr) : {poly Fr} :=
  \prod_(x <- xs) ('X - x%:P).

(** The multi-point evaluation proof of the cell at [position]: the
    commitment to the quotient of the polynomial by the vanishing
    polynomial of the points of the cell. *)
Definition cell_proof (s : Setup) (q : {poly Fr}) (position : nat)
  : KZGProof :=
  compress (commit_g1 s (q %/ vanishing (cell_points (fft_ext_roots s) position))).

(** Modelled from the spec (4.5, extendAndProve); without the [proofs]
    pointer the proofs are left as they were. *)
Definition spec_compute_cells_and_proofs (with_proofs : bool)
    (blob : option Blob) (s : Setup)
  : C_KZG_RET * (seq Cell * seq KZGProof) :=
  match obind blob_evaluations blob with
  | Some ys =>
      let q := interpolate (fft_roots s) ys in
      (C_KZG_OK,
       (cells_of_polynomial (fft_ext_roots s) q,
        if with_proofs
        then [seq cell_proof s q k | k <- iota 0 cells_per_ext_blob]
        else nseq cells_per_ext_blob zero48))
  | None =>
      (C_KZG_BADARGS,
       (nseq cells_per_ext_blob (nseq cell_size zero32),
        nseq cells_per_ext_blob zero48))
  end.

(** Modelled from the spec (4.5, assemble): the polynomial through the
    full extended evaluation vector must respect the degree bound; the
    blob is its evaluation over the base domain. *)
Definition spec_cells_to_blob (cells : seq Cell) : C_KZG_RET * Blob :=
  if (size cells != cells_per_ext_blob) || ~~ all cell_sized cells
  then (C_KZG_BADARGS, nseq (N * 32) Byte.x00) else
  match decode_all (flatten cells) with
  | Some ext =>
      let q := interpolate (extended_domain N omega) ext in
      if (N < size q)%N then (C_KZG_BADARGS, nseq (N * 32) Byte.x00)
      else (C_KZG_OK,
            flatten [seq bytes_of_fr q.[x] | x <- roots_of_unity N omega])
  | None => (C_KZG_BADARGS, nseq (N * 32) Byte.x00)
  end.

(** Modelled from the spec (4.5, recover). *)
Definition spec_recover_all_cells (cell_ids : seq uint64) (cells : seq Cell)
    (num_cells : nat) (s : Setup) : C_KZG_RET * seq Cell :=
  let ids := take num_cells cell_ids in
  let cells := take num_cells cells in
  let failed r := (r, nseq cells_per_ext_blob (nseq cell_size zero32)) in
  if (num_cells < cells_per_ext_blob %/ 2)%N then failed C_KZG_BADARGS else
  if ~~ all (fun id => id < cells_per_ext_blob)%N ids
  then failed C_KZG_BADARGS else
  if ~~ uniq ids then failed C_KZG_BADARGS else
  if ~~ all cell_sized cells then failed C_KZG_BADARGS else
  match decode_all (flatten cells) with
  | Some ys =>
      let xs := flatten [seq cell_points (fft_ext_roots s) id | id <- ids] in
      let q := interpolate xs ys in
      if (N < size q)%N then failed C_KZG_ERROR
      else (C_KZG_OK, cells_of_polynomial (fft_ext_roots s) q)
  | None => failed C_KZG_BADARGS
  end.

(** Modelled from the spec (4.6, verifyCell): the pairing identity over
    the points of the cell. *)
Definition spec_verify_cell_proof (commitmentBytes : Bytes48)
    (cell_id : uint64) (cell : Cell) (proofBytes : Bytes48) (s : Setup)
  : C_KZG_RET * bool :=
  if (cells_per_ext_blob <= cell_id)%N || ~~ cell_sized cell
  then (C_KZG_BADARGS, false) else
  match decompress curve commitmentBytes, decode_all cell,
        decompress curve proofBytes with
  | Some C, Some ys, Some P =>
      let xs := cell_points (fft_ext_roots s) cell_id in
      (C_KZG_OK,
       pairing (C - commit_g1 s (interpolate xs ys)) (g2 curve)
       == pairing P (commit_g2 s (vanishing xs)))
  | _, _, _ => (C_KZG_BADARGS, false)
  end.

(** Modelled from the spec (4.6, verifyCellBatch): every cell is checked
    against the commitment of its row. *)
Definition spec_verify_cell_proof_batch (commitments : seq Bytes48)
    (num_commitments : nat) (row_indices column_indices : seq uint64)
    (cells : seq Cell) (proofs : seq Bytes48) (num_cells : nat) (s : Setup)
  : C_KZG_RET * bool :=
  let commitments := take num_commitments commitments in
  let checks :=
    [seq (if (t.1.1.1 < size commitments)%N
          then spec_verify_cell_proof (nth zero48 commitments t.1.1.1)
                 t.1.1.2 t.1.2 t.2 s
          else (C_KZG_BADARGS, false))
    | t <- zip (zip (zip (take num_cells row_indices)
                         (take num_cells column_indices))
                    (take num_cells cells))
               (take num_cells proofs)] in
  if all (fun c => c.1 == C_KZG_OK) checks
  then (C_KZG_OK, all (fun c => c.2) checks)
  else (C_KZG_BADARGS, false).

Definition spec_load (parsed : option Setup) : C_KZG_RET * Setup :=
  if parsed is Some s then (C_KZG_OK, s) else (C_KZG_BADARGS, empty_Setup).

(** The library and the macros of its header. *)
Definition spec_library : CLibrary := {|
  KZGSettings := Setup;
  KZGSettings_zero := empty_Setup;
  FILE := seq byte;
  fopen_r := read_file env;
  load_trusted_setup := fun g1b n1 g2b n2 =>
    spec_load (parse_trusted_setup env g1b n1 g2b n2);
  load_trusted_setup_file := fun f => spec_load (parse_trusted_setup_file env f);
  free_trusted_setup := fun _ => empty_Setup;
  blob_to_kzg_commitment := spec_blob_to_kzg_commitment;
  compute_kzg_proof := spec_compute_kzg_proof;
  compute_blob_kzg_proof := spec_compute_blob_kzg_proof;
  verify_kzg_proof := spec_verify_kzg_proof;
  verify_blob_kzg_proof := spec_verify_blob_kzg_proof;
  verify_blob_kzg_proof_batch := spec_verify_blob_kzg_proof_batch;
  compute_cells_and_proofs := spec_compute_cells_and_proofs;
  cells_to_blob := spec_cells_to_blob;
  recover_all_cells := spec_recover_all_cells;
  verify_cell_proof := spec_verify_cell_proof;
  verify_cell_proof_batch := spec_verify_cell_proof_batch
|}.

Definition spec_macros : CMacros := {|
  BYTES_PER_BLOB := N * 32;
  BYTES_PER_COMMITMENT := 48;
  BYTES_PER_FIELD_ELEMENT := 32;
  BITS_PER_FIELD_ELEMENT := trunc_log 2 p;
  BYTES_PER_PROOF := 48;
  FIELD_ELEMENTS_PER_BLOB := N;
  FIELD_ELEMENTS_PER_CELL := cell_size;
  CELLS_PER_EXT_BLOB := cells_per_ext_blob;
  BYTES_PER_CELL := cell_size * 32;
  BYTES_PER_G1 := 48;
  BYTES_PER_G2 := bytes_per_g2 env
|}.

(** A valid setup: the powers of one secret [tau] in both groups, at
    least [N] of each, and the roots of the two domains. *)
Definition valid_Setup (s : Setup) : Prop :=
  exists tau : Fr,
    [/\ (N <= size (g1_powers s))%N /\ (N <= size (g2_powers s))%N,
        forall i, (i < size (g1_powers s))%N ->
                  (g1_powers s)`_i = tau ^+ i *: g1 curve,
        forall i, (i < size (g2_powers s))%N ->
                  (g2_powers s)`_i = tau ^+ i *: g2 curve,
        fft_roots s = roots_of_unity N omega
      & fft_ext_roots s = extended_domain N omega].

End Core.

(** ** A small instance of the core *)

(** The properties of the modelled library are stated for every modulus,
    domain and pairing that satisfy the hypotheses of the specification.
    This instance satisfies them: the field of integers modulo 17, blobs of
    4 field elements, cells of 2 field elements, and the field itself as
    each of the pairing groups. *)

Section SmallInstance.

Local Open Scope ring_scope.

Definition small_p : nat := 17.

Local Notation Fs := 'F_small_p.

(** 2 has order 8 modulo 17. *)
Definition small_omega : Fs := 2%:R.

(** A point is compressed to the 48 bytes of its integer value. *)
Definition small_decompress (bs : Bytes48) : option Fs :=
  if (nat_of_bytes bs < small_p)%N then Some (inZp (nat_of_bytes bs))
  else None.

(** The scalar field as each of the pairing groups, with the product as
    the pairing and 1 as the generators. *)
Definition small_curve : PairingGroups Fs := {|
  G1 := Fs^o; G2 := Fs^o; GT := Fs^o;
  pairing := fun x y : Fs^o => (x * y : Fs^o);
  g1 := (1 : Fs^o); g2 := (1 : Fs^o);
  compress := fun x : Fs^o => bytes_of_nat 48 (x : Fs);
  decompress := small_decompress
|}.

Definition small_tau : Fs := 3%:R.

(** The setup for the secret 3. *)
Definition small_setup : Setup small_curve := {|
  g1_powers := [seq small_tau ^+ i *: g1 small_curve | i <- iota 0 4];
  g2_powers := [seq small_tau ^+ i *: g2 small_curve | i <- iota 0 4];
  fft_roots := roots_of_unity 4 small_omega;
  fft_ext_roots := extended_domain 4 small_omega
|}.

(** Constant challenges, and a loader that yields [small_setup]. *)
Definition small_env : Collaborators small_curve := {|
  fiat_shamir_point := fun _ _ => 5%:R;
  fiat_shamir_weights := fun blobs _ _ => nseq (size blobs) 1;
  read_file := fun _ => Some [::];
  parse_trusted_setup := fun _ _ _ _ => Some small_setup;
  parse_trusted_setup_file := fun _ => Some small_setup;
  bytes_per_g2 := 96
|}.

Definition small_library : CLibrary := spec_library 4 2 small_omega small_env.
Definition small_macros : CMacros := spec_macros 4 2 small_env.

(** The package state with [small_setup] loaded. *)
Definition small_loaded : State small_library :=
  @Build_State small_library true small_setup [::].

(** The 32 bytes of a field element below 256. *)
Definition small_fr (b : byte) : Bytes32 := rcons (nseq 31 Byte.x00) b.

(** A blob: the field elements 5, 0, 16, 3. *)
Definition small_blob : Blob :=
  small_fr Byte.x05 ++ small_fr Byte.x00 ++ small_fr Byte.x10
  ++ small_fr Byte.x03.

(** A text of 128 characters, all ['0'] but for ["0x"] at the start of
    its second half. *)
Definition inner_prefix_text : seq byte :=
  nseq 64 char_0 ++ [:: char_0; char_x] ++ nseq 62 char_0.

(** A text of 64 characters ['g']. *)
Definition not_hex_text : seq byte := nseq 64 Byte.x67.

(** A text of 128 characters: 64 characters ['g'], then ["0x"] and 62
    characters ['0']. *)
Definition bad_digit_then_prefix_text : seq byte :=
  not_hex_text ++ [:: char_0; char_x] ++ nseq 62 char_0.

(** The package state with [small_setup] loaded and the one C call [c] on
    record. *)
Definition small_after_call (c : ccall) : State small_library :=
  @Build_State small_library true small_setup [:: c].

(** The text ["0x1fz0"], the digits ["AB"] and ["ab"], and ["0x01ff"]. *)
Definition bad_digit_text : seq byte :=
  [:: char_0; char_x; Byte.x31; Byte.x66; Byte.x7a; Byte.x30].
Definition upper_AB : seq byte := [:: Byte.x41; Byte.x42].
Definition lower_ab : seq byte := [:: Byte.x61; Byte.x62].
Definition text_01ff : seq byte :=
  [:: char_0; char_x; Byte.x30; Byte.x31; Byte.x66; Byte.x66].

End SmallInstance.

(** ** Proof steps *)

(** Run a wrapper: unfold it and the operations of the monad. *)
Ltac run_go :=
  rewrite /invoke /fmap /LoadTrustedSetup /LoadTrustedSetupFile
    /FreeTrustedSetup /BlobToKZGCommitment /ComputeKZGProof
    /ComputeBlobKZGProof /VerifyKZGProof /VerifyBlobKZGProof
    /VerifyBlobKZGProofBatch /ComputeCells /ComputeCellsAndProofs
    /CellsToBlob /RecoverAllCells /VerifyCellProof /VerifyCellProofBatch
    /bind /get_loaded /set_loaded /C_call /C_call_out /panic /ret /=.

(** Case analysis on what the C library and the guards of a wrapper
    yield. *)
Ltac split_outcome :=
  repeat match goal with
  | |- context [fopen_r ?l ?f] => case: (fopen_r l f) => [?|] /=
  | |- context [let: (_, _) := ?e in _] => case: e => ? ? /=
  | |- context [if ?b then _ else _] => case: b => /=
  | |- context [match ?e with Some _ => _ | None => _ end] =>
      case: e => [?|] /=
  end.

(** ** Properties of the bindings, for any C library *)

Section BindingProperties.

Variable k : CMacros.
Variable lib : CLibrary.

Lemma makeErrorFromRet_cases (r : C_KZG_RET) :
  r != C_KZG_OK ->
  typed_error (makeErrorFromRet r) \/
  (exists2 r', makeErrorFromRet r = ErrUnexpectedFromC r' & ~~ known_ret r').
Proof.
case: r => [|[|[|[|r]]]] // _; try by left.
by right; exists r.+4.
Qed.

(** C1 (amended).  An interface function other than the two loaders,
    called while no trusted setup is loaded, panics with "trusted setup
    isn't loaded"; [LoadTrustedSetup] and [LoadTrustedSetupFile], called
    while a setup is loaded, panic with "trusted setup is already
    loaded".  Neither misuse is reported as an error value. *)
Theorem setup_misuse_panics (c : call) (st : State lib) :
  (loaded st = false -> is_loader c = false ->
     invoke k lib c st = Panicked not_loaded_msg) /\
  (loaded st = true -> is_loader c = true ->
     invoke k lib c st = Panicked already_loaded_msg).
Proof.
by split=> ld; case: c => //= *; run_go; rewrite ld.
Qed.

(** C5.  With a setup loaded, [VerifyBlobKZGProofBatch] returns [false]
    and [ErrBadArgs] whenever the lengths of [blobs], [commitmentsBytes]
    and [proofsBytes] are not all equal, and [VerifyCellProofBatch] returns
    [false] and [ErrBadArgs] whenever the lengths of [rowIndices],
    [columnIndices], [cells] and [proofsBytes] are not all equal.  The C
    library is not called. *)
Theorem batch_length_mismatch_is_BadArgs (st : State lib)
    (blobs : seq Blob) (commitmentsBytes proofsBytes : seq Bytes48)
    (cellCommitments : seq Bytes48) (rowIndices columnIndices : seq uint64)
    (cells : seq Cell) (cellProofs : seq Bytes48) :
  loaded st = true ->
  (~ (size blobs = size commitmentsBytes /\
      size commitmentsBytes = size proofsBytes) ->
   VerifyBlobKZGProofBatch lib blobs commitmentsBytes proofsBytes st
   = Returned ((false, Some ErrBadArgs), st)) /\
  (~ [/\ size rowIndices = size columnIndices,
         size columnIndices = size cells & size cells = size cellProofs] ->
   VerifyCellProofBatch lib cellCommitments rowIndices columnIndices cells
     cellProofs st
   = Returned ((false, Some ErrBadArgs), st)).
Proof.
move=> ld; split=> neq; run_go; rewrite ld /=.
  case: eqP => [e1|//] /=; case: eqP => [e2|//] /=.
  by case: neq; rewrite -e1 -e2.
case: eqP => [e1|//] /=; case: eqP => [e2|//] /=; case: eqP => [e3|//] /=.
by case: neq; rewrite e1 e2 e3.
Qed.

(** C9.  With a setup loaded and a nil blob pointer,
    [BlobToKZGCommitment], [ComputeKZGProof], [ComputeBlobKZGProof] and
    [VerifyBlobKZGProof] return [ErrBadArgs] with zero-valued results and
    leave the state, and with it the record of C calls, as it was: the C
    library is not invoked.  [ComputeCells] and [ComputeCellsAndProofs]
    have no such check: they call [compute_cells_and_proofs] with the NULL
    blob and report what it returns. *)
Theorem nil_blob_handling (st : State lib) (zBytes : Bytes32)
    (commitmentBytes proofBytes : Bytes48) :
  loaded st = true ->
  [/\ BlobToKZGCommitment lib None st
      = Returned ((zero_KZGCommitment, Some ErrBadArgs), st),
      ComputeKZGProof lib None zBytes st
      = Returned ((zero_KZGProof, zero_Bytes32, Some ErrBadArgs), st),
      ComputeBlobKZGProof lib None commitmentBytes st
      = Returned ((zero_KZGProof, Some ErrBadArgs), st) &
      VerifyBlobKZGProof lib None commitmentBytes proofBytes st
      = Returned ((false, Some ErrBadArgs), st)] /\
  (exists res st',
     [/\ ComputeCells k lib None st = Returned (res, st'),
         ccalls st' = rcons (ccalls st) (call_compute_cells_and_proofs None) &
         let r := (compute_cells_and_proofs lib false None (settings st)).1 in
         res.2 = if r != C_KZG_OK then Some (makeErrorFromRet r) else None]) /\
  (exists res st',
     [/\ ComputeCellsAndProofs k lib None st = Returned (res, st'),
         ccalls st' = rcons (ccalls st) (call_compute_cells_and_proofs None) &
         let r := (compute_cells_and_proofs lib true None (settings st)).1 in
         res.2 = if r != C_KZG_OK then Some (makeErrorFromRet r) else None]).
Proof.
move=> ld; split; first by split; run_go; rewrite ld.
split; run_go; rewrite ld /=.
  case: (compute_cells_and_proofs _ _ _ _) => r [cells proofs] /=.
  by case: ifP => _; eexists; eexists; split.
case: (compute_cells_and_proofs _ _ _ _) => r [cells proofs] /=.
by case: ifP => _; eexists; eexists; split.
Qed.

(** C8 (amended).  Every error value an interface function returns is
    one of the three typed errors, or the formatted "unexpected error from
    c-library" error carrying a return code outside the enumeration. *)
Theorem returned_errors_are_typed (c : call) (st st' : State lib)
    (v : value) (e : error) :
  invoke k lib c st = Returned ((v, Some e), st') ->
  typed_error e \/ (exists2 r, e = ErrUnexpectedFromC r & ~~ known_ret r).
Proof.
have ok := makeErrorFromRet_cases.
case: c => [g1 g2|f||blob|blob z|blob c|c z y p|blob c p|bs cs ps|blob|blob
           |cells|ids cells|c id cell p|cs rows cols cells ps]; run_go;
  case: (loaded st) => //=.
- case: ifP => // _; case: ifP => // _.
  case: (load_trusted_setup _ _ _ _ _) => r s /=.
  by case: ifP => // /negbT nz [_ <- _]; apply: ok.
- case: (fopen_r _ _) => // fp.
  case: (load_trusted_setup_file _ _) => r s /=.
  by case: ifP => // /negbT nz [_ <- _]; apply: ok.
- case: blob => [b|]; last by case=> _ <- _; left.
  case: (blob_to_kzg_commitment _ _ _) => r x /=.
  by case: ifP => // nz [_ <- _]; apply: ok.
- case: blob => [b|]; last by case=> _ <- _; left.
  case: (compute_kzg_proof _ _ _ _) => r [x y'] /=.
  by case: ifP => // nz [_ <- _]; apply: ok.
- case: blob => [b|]; last by case=> _ <- _; left.
  case: (compute_blob_kzg_proof _ _ _ _) => r x /=.
  by case: ifP => // nz [_ <- _]; apply: ok.
- case: (verify_kzg_proof _ _ _ _ _ _) => r x /=.
  by case: ifP => // nz [_ <- _]; apply: ok.
- case: blob => [b|]; last by case=> _ <- _; left.
  case: (verify_blob_kzg_proof _ _ _ _ _) => r x /=.
  by case: ifP => // nz [_ <- _]; apply: ok.
- case: ifP => _; first by case=> _ <- _; left.
  case: (verify_blob_kzg_proof_batch _ _ _ _ _ _) => r x /=.
  by case: ifP => // nz [_ <- _]; apply: ok.
- case: (compute_cells_and_proofs _ _ _ _) => r [x y'] /=.
  by case: ifP => // nz [_ <- _]; apply: ok.
- case: (compute_cells_and_proofs _ _ _ _) => r [x y'] /=.
  by case: ifP => // nz [_ <- _]; apply: ok.
- case: (cells_to_blob _ _) => r x /=.
  by case: ifP => // nz [_ <- _]; apply: ok.
- case: ifP => _; first by case=> _ <- _; left.
  case: (recover_all_cells _ _ _ _ _) => r x /=.
  by case: ifP => // nz [_ <- _]; apply: ok.
- case: (verify_cell_proof _ _ _ _ _ _) => r x /=.
  by case: ifP => // nz [_ <- _]; apply: ok.
- case: ifP => _; first by case=> _ <- _; left.
  case: (verify_cell_proof_batch _ _ _ _ _ _ _ _ _) => r x /=.
  by case: ifP => // nz [_ <- _]; apply: ok.
Qed.

End BindingProperties.

(** ** [encoding/hex] decodes hexadecimal text *)

Section HexDecode.

Lemma fromHexCharE (c : byte) :
  fromHexChar c = if is_hex_digit c then Some (hex_digit_value c) else None.
Proof. by case: c. Qed.

Lemma hex_digit_value_lt16 (c : byte) : is_hex_digit c -> hex_digit_value c < 16.
Proof. by case: c. Qed.

Lemma shl4_orE (a b : nat) :
  a < 16 -> b < 16 -> shl4_or a b = byte_of_nat (16 * a + b).
Proof.
move=> lta ltb.
have: all (fun a => all (fun b => shl4_or a b == byte_of_nat (16 * a + b))
                      (iota 0 16)) (iota 0 16) by vm_compute.
move/allP/(_ a); rewrite mem_iota lta => /(_ isT) /allP/(_ b).
by rewrite mem_iota ltb => /(_ isT) /eqP.
Qed.

Lemma size_hex_bytes (m : nat) (s : seq byte) :
  size s = 2 * m -> size (hex_bytes s) = m.
Proof.
elim: m s => [|m IH] [|p [|q s]] //=; rewrite mulnS add2n //.
by case=> /IH ->.
Qed.

Lemma set_nth_size_cat (T : Type) (x0 : T) (pre post : seq T) (x v : T) :
  set_nth x0 (pre ++ x :: post) (size pre) v = rcons pre v ++ post.
Proof. by elim: pre => //= y pre ->. Qed.

(** [hex.Decode] on a text of [2 * m] hexadecimal digits, into a
    destination with room for [m] more bytes. *)
Lemma hex_Decode_from_ok (m : nat) (s pre post : seq byte) :
  size s = 2 * m -> all is_hex_digit s -> m <= size post ->
  hex_Decode_from (size pre) (pre ++ post) s
  = Returned (pre ++ hex_bytes s ++ drop m post, size pre + m, None).
Proof.
elim: m s pre post => [|m IH] [|p [|q s]] pre post //=;
  rewrite ?mulnS ?add2n //; first by rewrite drop0 addn0.
case=> sz /and3P[hp hq hs].
case: post => [|x post] //=; rewrite ltnS => le_m.
rewrite !fromHexCharE hp hq size_cat /= -addSnnS ltn_addr //.
rewrite set_nth_size_cat shl4_orE ?hex_digit_value_lt16 //.
set v := byte_of_nat _.
by rewrite -(size_rcons pre v) IH // size_rcons cat_rcons addSnnS.
Qed.

(** [hex.Decode] on a text of even length that holds a character which
    is not a hexadecimal digit. *)
Lemma hex_Decode_from_bad (m : nat) (s pre post : seq byte) :
  size s = 2 * m -> ~~ all is_hex_digit s -> m <= size post ->
  exists dst i c,
    [/\ hex_Decode_from (size pre) (pre ++ post) s
        = Returned (dst, i, Some (HexInvalidByteError c)),
        c \in s, ~~ is_hex_digit c & size dst = size (pre ++ post)].
Proof.
elim: m s pre post => [|m IH] [|p [|q s]] pre post //=;
  rewrite mulnS add2n //.
case=> sz bad.
case: post => [|x post] //=; rewrite ltnS => le_m.
rewrite !fromHexCharE.
case hp: (is_hex_digit p); last first.
  by exists (pre ++ x :: post), (size pre), p; rewrite mem_head hp.
case hq: (is_hex_digit q); last first.
  exists (pre ++ x :: post), (size pre), q.
  by rewrite in_cons mem_head orbT hq.
rewrite size_cat /= -addSnnS ltn_addr // set_nth_size_cat.
move: bad; rewrite hp hq /= => bad.
set v := shl4_or _ _.
have [dst [i [c [eq cs hc szd]]]] := IH s (rcons pre v) post sz bad le_m.
rewrite -(size_rcons pre v) eq; exists dst, i, c; split=> //.
  by rewrite !in_cons cs !orbT.
by rewrite szd !size_cat size_rcons /= addSnnS.
Qed.

Lemma hex_bytes_take (m : nat) (s : seq byte) :
  take m (hex_bytes s) = hex_bytes (take (2 * m) s).
Proof.
elim: m s => [|m IH] s; first by rewrite muln0 !take0.
by rewrite mulnS add2n; case: s => [|p [|q s]] //=; rewrite IH.
Qed.

Lemma hex_bytes_drop (m : nat) (s : seq byte) :
  2 * m <= size s -> drop m (hex_bytes s) = hex_bytes (drop (2 * m) s).
Proof.
elim: m s => [|m IH] s; first by rewrite muln0 !drop0.
rewrite mulnS add2n; case: s => [|p [|q s]] //=.
by rewrite !ltnS => /IH.
Qed.

Lemma strip_0x_hex (s : seq byte) : all is_hex_digit s -> strip_0x s = s.
Proof.
rewrite /strip_0x; case: s => [|c0 [|c1 s]] //= /and3P[_ h1 _].
by case: eqP => //= _; case: eqP h1 => // ->.
Qed.

Lemma size_strip_0x (s : seq byte) :
  has_0x_prefix s -> (size (strip_0x s)).+2 = size s.
Proof.
rewrite /strip_0x => h; rewrite h.
by case: s h => [|c0 [|c1 s]] //= _; rewrite drop0.
Qed.

Lemma is_hex_digitE (c : byte) : is_hex_digit c = (fromHexChar c != None).
Proof. by rewrite fromHexCharE; case: ifP. Qed.

Lemma hex_digit_valueE (c : byte) :
  is_hex_digit c -> hex_digit_value c = odflt 0 (fromHexChar c).
Proof. by rewrite fromHexCharE => ->. Qed.

Lemma has_bad_character (s : seq byte) :
  ~~ all is_hex_digit s -> first_bad_character s < size s.
Proof.
rewrite -has_predC /first_bad_character -has_find => bad.
rewrite (eq_has (a2 := predC is_hex_digit)) // => c /=.
by rewrite is_hex_digitE negbK.
Qed.

(** [hex.Decode] stops at the first character that is not a hexadecimal
    digit, with the pairs before it decoded into the destination. *)
Lemma hex_Decode_from_first_bad (m : nat) (s pre post : seq byte) :
  size s = 2 * m -> ~~ all is_hex_digit s -> m <= size post ->
  let i := first_bad_character s in
  hex_Decode_from (size pre) (pre ++ post) s
  = Returned (pre ++ hex_bytes (take (i./2).*2 s) ++ drop i./2 post,
              size pre + i./2, Some (HexInvalidByteError (nth Byte.x00 s i))).
Proof.
rewrite /first_bad_character.
elim: m s pre post => [|m IH] [|p [|q s]] pre post //=;
  rewrite mulnS add2n //.
case=> sz bad; case: post => [|x post] //=; rewrite ltnS => le_m.
rewrite !fromHexCharE.
case hp: (is_hex_digit p) => /=; last by rewrite addn0.
case hq: (is_hex_digit q) => /=; last by rewrite addn0.
rewrite size_cat /= -addSnnS ltn_addr // set_nth_size_cat.
move: bad; rewrite hp hq /= => bad.
rewrite shl4_orE ?hex_digit_value_lt16 ?hp ?hq //.
set v := byte_of_nat _.
rewrite -(size_rcons pre v) (IH s (rcons pre v) post sz bad le_m) /=.
by rewrite size_rcons cat_rcons addSnnS.
Qed.

Lemma has_bad_characterE (s : seq byte) :
  has (fun c => fromHexChar c == None) s = ~~ all is_hex_digit s.
Proof.
rewrite -has_predC; apply: eq_has => c /=.
by rewrite is_hex_digitE negbK.
Qed.

Lemma has_0x_prefix_not_hex (s : seq byte) :
  has_0x_prefix s -> ~~ all is_hex_digit s.
Proof.
by case: s => [|c0 [|c1 s]] //= /andP[_ /eqP ->]; rewrite andbF.
Qed.

End HexDecode.

(** ** The [UnmarshalText] methods *)

Section UnmarshalText.

Variable k : CMacros.

Lemma UnmarshalText_array_ok (n : nat) (b input : seq byte) :
  size b = n -> size (strip_0x input) = 2 * n ->
  all is_hex_digit (strip_0x input) ->
  UnmarshalText_array n b input = Returned (hex_bytes (strip_0x input), None).
Proof.
move=> szb szs hs; rewrite /UnmarshalText_array szs eqxx /= /hex_Decode.
rewrite (hex_Decode_from_ok [::] szs hs) ?szb //= add0n eqxx /=.
by rewrite -szb drop_size cats0.
Qed.

Lemma UnmarshalText_array_badlen (n : nat) (b input : seq byte) :
  size (strip_0x input) <> 2 * n ->
  UnmarshalText_array n b input = Returned (b, Some ErrBadArgs).
Proof. by rewrite /UnmarshalText_array => /eqP/negbTE ->. Qed.

Lemma UnmarshalText_array_badchar (n : nat) (b input : seq byte) :
  size b = n -> size (strip_0x input) = 2 * n ->
  ~~ all is_hex_digit (strip_0x input) ->
  exists b' ch,
    [/\ UnmarshalText_array n b input
        = Returned (b', Some (HexInvalidByteError ch)),
        ch \in strip_0x input, ~~ is_hex_digit ch & size b' = n].
Proof.
move=> szb szs hs; rewrite /UnmarshalText_array szs eqxx /= /hex_Decode.
have [|dst [i [ch [-> chs hch szd]]]] :=
  hex_Decode_from_bad [::] (post := b) szs hs; first by rewrite szb.
by exists dst, ch; split=> //; rewrite szd.
Qed.

Lemma UnmarshalText_array_first_bad (n : nat) (b input : seq byte) :
  size b = n -> size (strip_0x input) = 2 * n ->
  ~~ all is_hex_digit (strip_0x input) ->
  exists b',
    UnmarshalText_array n b input
    = Returned (b', Some (HexInvalidByteError
                            (nth Byte.x00 (strip_0x input)
                               (first_bad_character (strip_0x input))))).
Proof.
move=> szb szs bad; rewrite /UnmarshalText_array szs eqxx /= /hex_Decode.
have := @hex_Decode_from_first_bad n _ [::] b szs bad.
by rewrite szb leqnn /= => /(_ isT) ->; eexists.
Qed.

Lemma UnmarshalText_array_spec (n : nat) (b input : seq byte) :
  size b = n ->
  UnmarshalText_spec n id (fun _ => false) b input
    (UnmarshalText_array n b input).
Proof.
move=> szb; rewrite /UnmarshalText_spec.
have [szs|nszs] := eqVneq (size (strip_0x input)) (2 * n); last first.
  have /eqP nsz := nszs; rewrite (UnmarshalText_array_badlen _ nsz).
  by split=> //; split; [case | case=> /nsz].
have [hs|nhs] := boolP (all is_hex_digit (strip_0x input)).
  rewrite UnmarshalText_array_ok //; split.
  - by split=> // _; exists (hex_bytes (strip_0x input)).
  - by move=> b' [<-].
  - by rewrite szs.
  - by [].
have [b' eq] := UnmarshalText_array_first_bad szb szs nhs.
rewrite eq; split.
- by split; [case | case].
- by [].
- by rewrite szs.
- by move=> _ _; exists b'.
Qed.

Hypothesis field_element_is_32_bytes : BYTES_PER_FIELD_ELEMENT k = 32.
Hypothesis cell_is_field_elements :
  BYTES_PER_CELL k = FIELD_ELEMENTS_PER_CELL k * 32.

Lemma chars_per_field_element : 2 * BytesPerFieldElement k = 64.
Proof. by rewrite /BytesPerFieldElement field_element_is_32_bytes. Qed.

Lemma slice_chunk (pre rem : seq byte) (n : nat) :
  size rem = 64 * n.+1 ->
  slice (pre ++ rem) (size pre) (size pre + 64) = Returned (take 64 rem).
Proof.
move=> sz; rewrite /slice leq_addr size_cat leq_add2l sz leq_pmulr //=.
by rewrite addKn drop_size_cat.
Qed.

Lemma size_chunk (rem : seq byte) (n : nat) :
  size rem = 64 * n.+1 -> size (take 64 rem) = 2 * 32.
Proof. by move=> sz; rewrite size_take_min sz (minn_idPl _) // leq_pmulr. Qed.

Lemma size_rest (rem : seq byte) (n : nat) :
  size rem = 64 * n.+1 -> size (drop 64 rem) = 64 * n.
Proof. by move=> sz; rewrite size_drop sz mulnS addKn. Qed.

Lemma Cell_UnmarshalText_loop_ok (n : nat) (done rest : Cell)
    (pre rem : seq byte) :
  size rest = n -> all has_size32 rest -> size rem = 64 * n ->
  all is_hex_digit rem ->
  Cell_UnmarshalText_loop k n (size done) (size pre) (done ++ rest)
    (pre ++ rem)
  = Returned (done ++ reshape (nseq n 32) (hex_bytes rem), None).
Proof.
elim: n done rest pre rem => [|n IH] done [|r rest] pre rem //= [szr].
case/andP=> /eqP szr0 szrs sz hs.
rewrite chars_per_field_element size_cat /= -addSnnS leqNgt ltn_addr //=.
rewrite (slice_chunk _ sz) nth_cat ltnn subnn /= /Bytes32_UnmarshalText.
have hs1 : all is_hex_digit (take 64 rem).
  by move: hs; rewrite -{1}(cat_take_drop 64 rem) all_cat => /andP[].
have hs2 : all is_hex_digit (drop 64 rem).
  by move: hs; rewrite -{1}(cat_take_drop 64 rem) all_cat => /andP[].
rewrite UnmarshalText_array_ok ?strip_0x_hex ?(size_chunk sz) //.
rewrite set_nth_size_cat -[in pre ++ rem](cat_take_drop 64 rem) catA.
set v := hex_bytes _.
have -> : size pre + 64 = size (pre ++ take 64 rem).
  by rewrite size_cat (size_chunk sz).
rewrite -(size_rcons done v) IH ?(size_rest sz) // cat_rcons.
by rewrite hex_bytes_take hex_bytes_drop // sz leq_pmulr.
Qed.

Lemma first_bad_field_element_text_cons (n : nat) (rem : seq byte) :
  first_bad_field_element_text n.+1 rem
  = if all is_hex_digit (take 64 rem)
    then first_bad_field_element_text n (drop 64 rem) else take 64 rem.
Proof.
by rewrite /first_bad_field_element_text /field_element_texts /=; case: all.
Qed.

Lemma first_bad_character_chunk (rem : seq byte) (n : nat) :
  size rem = 64 * n.+1 ->
  nth Byte.x00 rem (first_bad_character rem)
  = if all is_hex_digit (take 64 rem)
    then nth Byte.x00 (drop 64 rem) (first_bad_character (drop 64 rem))
    else nth Byte.x00 (take 64 rem) (first_bad_character (take 64 rem)).
Proof.
move=> sz; rewrite /first_bad_character -{1 2}(cat_take_drop 64 rem).
rewrite find_cat has_bad_characterE.
have [hs|nhs] := boolP (all is_hex_digit (take 64 rem)) => /=.
  by rewrite nth_cat ltnNge leq_addr /= addKn.
by rewrite nth_cat has_bad_character.
Qed.

Lemma Cell_UnmarshalText_loop_bad (n : nat) (done rest : Cell)
    (pre rem : seq byte) :
  size rest = n -> all has_size32 rest -> size rem = 64 * n ->
  ~~ all is_hex_digit rem ->
  exists c',
    Cell_UnmarshalText_loop k n (size done) (size pre) (done ++ rest)
      (pre ++ rem)
    = Returned
        (c', Some (if has_0x_prefix (first_bad_field_element_text n rem)
                   then ErrBadArgs
                   else HexInvalidByteError
                          (nth Byte.x00 rem (first_bad_character rem)))).
Proof.
elim: n done rest pre rem => [|n IH] done [|r rest] pre rem //=.
  by move=> _ _ /size0nil ->.
case=> szr /andP[/eqP szr0 szrs] sz hs.
rewrite chars_per_field_element size_cat /= -addSnnS leqNgt ltn_addr //=.
rewrite (slice_chunk _ sz) nth_cat ltnn subnn /= /Bytes32_UnmarshalText.
rewrite first_bad_field_element_text_cons (first_bad_character_chunk sz).
have [pfx|npfx] := boolP (has_0x_prefix (take 64 rem)).
  rewrite (negbTE (has_0x_prefix_not_hex pfx)) pfx.
  rewrite UnmarshalText_array_badlen; last by eexists.
  by move=> eq; move: (size_strip_0x pfx); rewrite eq (size_chunk sz).
have strip_id : strip_0x (take 64 rem) = take 64 rem.
  by rewrite /strip_0x (negbTE npfx).
have [hs1|nhs1] := boolP (all is_hex_digit (take 64 rem)).
  rewrite UnmarshalText_array_ok ?strip_id ?(size_chunk sz) //.
  rewrite set_nth_size_cat.
  have nhs2 : ~~ all is_hex_digit (drop 64 rem).
    by move: hs; rewrite -{1}(cat_take_drop 64 rem) all_cat hs1.
  set v := hex_bytes _.
  have [c' eq] := IH (rcons done v) rest (pre ++ take 64 rem)
    (drop 64 rem) szr szrs (size_rest sz) nhs2.
  exists c'.
  by rewrite -eq size_rcons size_cat (size_chunk sz) -catA cat_take_drop.
rewrite (negbTE npfx).
case: (@UnmarshalText_array_first_bad 32 r (take 64 rem) szr0) => [||b' eq].
- by rewrite strip_id (size_chunk sz).
- by rewrite strip_id.
by rewrite eq strip_id; eexists.
Qed.

Lemma Cell_UnmarshalText_spec (c : Cell) (input : seq byte) :
  size c = FieldElementsPerCell k -> all has_size32 c ->
  UnmarshalText_spec (BytesPerCell k)
    (reshape (nseq (FieldElementsPerCell k) 32))
    (fun s =>
       has_0x_prefix
         (first_bad_field_element_text (FieldElementsPerCell k) s))
    c input (Cell_UnmarshalText k c input).
Proof.
move=> szc sz32; rewrite /UnmarshalText_spec /Cell_UnmarshalText.
have eq64 : 2 * BytesPerCell k = 64 * FieldElementsPerCell k.
  by rewrite /BytesPerCell cell_is_field_elements mulnCA mulnC.
have [szs|nszs] := eqVneq (size (strip_0x input)) (2 * BytesPerCell k);
  last first.
  have /eqP nsz := nszs.
  by split=> //; split; [case | case=> /nsz].
have [hs|nhs] := boolP (all is_hex_digit (strip_0x input)).
  have := @Cell_UnmarshalText_loop_ok _ [::] c [::] _ szc sz32 _ hs.
  rewrite -eq64 => /(_ szs) /= ->; split.
  - by split=> // _; eexists.
  - by move=> b' [<-].
  - by rewrite szs.
  - by [].
have := @Cell_UnmarshalText_loop_bad _ [::] c [::] _ szc sz32 _ nhs.
rewrite -eq64 => /(_ szs) /= [c' ->]; split.
- by split; [case | case].
- by [].
- by rewrite szs.
- by move=> _ _; exists c'.
Qed.

(** C10 (amended).  [UnmarshalText] on [Bytes32], [Bytes48], [Blob] and
    [Cell] succeeds exactly when the input, after an optional ["0x"] prefix
    is stripped, consists of exactly two hexadecimal digits for each byte
    of the target, and on success the receiver holds the decoded bytes.
    An input of the wrong length yields [ErrBadArgs] and leaves the
    receiver as it was.  An input of the right length that holds a
    character which is not a hexadecimal digit yields
    [hex.InvalidByteError] for the first such character; for a [Cell] it
    yields [ErrBadArgs] instead when the first of the 64-character texts
    of its field elements to hold such a character itself starts with
    ["0x"]. *)
Theorem UnmarshalText_behaviour (b32 : Bytes32) (b48 : Bytes48) (blob : Blob)
    (c : Cell) (input : seq byte) :
  size b32 = 32 -> size b48 = 48 -> size blob = BytesPerBlob k ->
  size c = FieldElementsPerCell k -> all (fun x => size x == 32) c ->
  [/\ UnmarshalText_spec 32 id (fun _ => false) b32 input
        (Bytes32_UnmarshalText b32 input),
      UnmarshalText_spec 48 id (fun _ => false) b48 input
        (Bytes48_UnmarshalText b48 input),
      UnmarshalText_spec (BytesPerBlob k) id (fun _ => false) blob input
        (Blob_UnmarshalText k blob input)
    & UnmarshalText_spec (BytesPerCell k)
        (reshape (nseq (FieldElementsPerCell k) 32))
        (fun s =>
           has_0x_prefix
             (first_bad_field_element_text (FieldElementsPerCell k) s))
        c input (Cell_UnmarshalText k c input)].
Proof.
move=> sz32 sz48 szblob szc szfe; split.
- exact: UnmarshalText_array_spec.
- exact: UnmarshalText_array_spec.
- exact: UnmarshalText_array_spec.
- exact: Cell_UnmarshalText_spec.
Qed.

End UnmarshalText.

(** ** Big-endian integers *)

Section ByteEncoding.

Lemma byte_val_lt256 (b : byte) : byte_val b < 256.
Proof. by case: b. Qed.

Lemma byte_of_natK (b : byte) : byte_of_nat (byte_val b) = b.
Proof. by case: b. Qed.

Lemma byte_val_of_nat (n : nat) : byte_val (byte_of_nat n) = n %% 256.
Proof.
rewrite /byte_of_nat /byte_val.
have lt : n %% 256 < 256 by rewrite ltn_pmod.
have := Byte.to_of_nat_option_map (n %% 256).
have -> : Nat.leb (n %% 256) 255 = true by apply/PeanoNat.Nat.leb_le/leP.
by case: (Byte.of_nat _) => //= b [].
Qed.

Lemma byte_of_nat_mod (n : nat) : byte_of_nat (n %% 256) = byte_of_nat n.
Proof. by rewrite /byte_of_nat modn_mod. Qed.

Lemma nat_of_bytes_rcons (bs : seq byte) (b : byte) :
  nat_of_bytes (rcons bs b) = nat_of_bytes bs * 256 + byte_val b.
Proof. by rewrite /nat_of_bytes -cats1 foldl_cat. Qed.

Lemma size_bytes_of_nat (len n : nat) : size (bytes_of_nat len n) = len.
Proof. by elim: len n => //= len IH n; rewrite size_rcons IH. Qed.

Lemma digit_lt (a b A : nat) : a < A -> b < 256 -> a * 256 + b < A * 256.
Proof.
move=> lta ltb; apply: (@leq_trans (a * 256 + 256)); first by rewrite ltn_add2l.
by rewrite addnC -mulSn leq_mul2r lta orbT.
Qed.

Lemma modn_digit (q r A : nat) :
  r < 256 -> 0 < A -> (q * 256 + r) %% (A * 256) = (q %% A) * 256 + r.
Proof.
move=> ltr A_gt0; rewrite {1}(divn_eq q A) mulnDl -mulnA -addnA modnMDl.
by rewrite modn_small // digit_lt // ltn_pmod.
Qed.

Lemma nat_of_bytes_lt (bs : seq byte) : nat_of_bytes bs < 256 ^ size bs.
Proof.
elim/last_ind: bs => [|bs b IH]; first by rewrite expn0.
by rewrite nat_of_bytes_rcons size_rcons expnSr digit_lt ?byte_val_lt256.
Qed.

Lemma bytes_of_natK (len n : nat) :
  nat_of_bytes (bytes_of_nat len n) = n %% 256 ^ len.
Proof.
elim: len n => [|len IH] n /=; first by rewrite expn0 modn1.
rewrite nat_of_bytes_rcons IH byte_val_of_nat expnSr.
by rewrite [in RHS](divn_eq n 256) modn_digit ?ltn_pmod ?expn_gt0.
Qed.

Lemma nat_of_bytesK (bs : seq byte) :
  bytes_of_nat (size bs) (nat_of_bytes bs) = bs.
Proof.
elim/last_ind: bs => [|bs b IH] //.
rewrite size_rcons nat_of_bytes_rcons /= divnMDl // divn_small ?byte_val_lt256 //.
rewrite addn0 IH; congr rcons.
by rewrite -byte_of_nat_mod modnMDl byte_of_nat_mod byte_of_natK.
Qed.

End ByteEncoding.

(** ** Interpolation, the domains and barycentric evaluation *)

Section Interpolation.

Local Open Scope ring_scope.

Variable F : fieldType.
Implicit Types (xs ys : seq F) (x : F) (q : {poly F}).

Lemma lagrange_basis_self xs x : (lagrange_basis xs x).[x] = 1.
Proof.
rewrite horner_prod big1 // => c cx.
by rewrite hornerZ hornerXsubC mulVf // subr_eq0 eq_sym.
Qed.

Lemma lagrange_basis_other xs x x' :
  x' \in xs -> x' != x -> (lagrange_basis xs x).[x'] = 0.
Proof.
move=> x'xs neq; apply/eqP; rewrite horner_prod prodf_seq_eq0.
apply/hasP; exists x' => //.
by rewrite neq hornerZ hornerXsubC subrr mulr0 eqxx.
Qed.

Lemma size_prod_linear (a : F -> F) (P : pred F) (r : seq F) :
  size (\prod_(c <- r | P c) (a c *: ('X - c%:P))) <= (count P r).+1.
Proof.
elim: r => [|c r IH]; first by rewrite big_nil size_poly1.
rewrite big_cons /=; case: (P c); last by rewrite add0n.
apply: leq_trans (size_polyMleq _ _) _.
have le2 : size (a c *: ('X - c%:P)) <= 2.
  by apply: leq_trans (size_scale_leq _ _) _; rewrite size_XsubC.
by rewrite -subn1 leq_subLR add1n (leq_add le2 IH).
Qed.

Lemma size_lagrange_basis xs x :
  x \in xs -> size (lagrange_basis xs x) <= size xs.
Proof.
move=> xxs; apply: leq_trans (size_prod_linear _ _ _) _.
rewrite -(count_predC (pred1 x) xs) -add1n leq_add //.
by rewrite -has_count has_pred1.
Qed.

Lemma size_interpolate xs ys : size (interpolate xs ys) <= size xs.
Proof.
apply: leq_trans (size_sum _ _ _) _; apply/bigmax_leqP => i _.
apply: leq_trans (size_scale_leq _ _) _.
by rewrite size_lagrange_basis ?mem_nth.
Qed.

Lemma interpolateE xs ys (i : nat) :
  uniq xs -> (i < size xs) -> (interpolate xs ys).[xs`_i] = ys`_i.
Proof.
move=> uxs lti; rewrite horner_sum (bigD1 (Ordinal lti)) //=.
rewrite hornerZ lagrange_basis_self mulr1 big1 ?addr0 // => j neq.
rewrite hornerZ lagrange_basis_other ?mulr0 ?mem_nth //.
by rewrite nth_uniq // eq_sym.
Qed.

Lemma interpolate_unique xs ys q :
  uniq xs -> (size q <= size xs) ->
  (forall i, (i < size xs) -> q.[xs`_i] = ys`_i) ->
  interpolate xs ys = q.
Proof.
move=> uxs szq agree; apply/eqP; rewrite -subr_eq0; apply/eqP.
apply: (@roots_geq_poly_eq0 _ _ xs) => //.
  apply/allP => x /(nthP 0) [i lti <-].
  by rewrite rootE hornerD hornerN interpolateE // agree // subrr.
apply: leq_trans (size_polyD _ _) _.
by rewrite geq_max size_polyN size_interpolate.
Qed.

Lemma interpolate_horner xs q :
  uniq xs -> (size q <= size xs) ->
  interpolate xs [seq q.[x] | x <- xs] = q.
Proof.
move=> uxs szq; apply: interpolate_unique => // i lti.
by rewrite (nth_map 0).
Qed.

End Interpolation.

Section Domain.

Local Open Scope ring_scope.

Variable F : fieldType.
Variable N : nat.
Variable omega : F.

Local Notation roots := (roots_of_unity N omega).
Local Notation ext := (extended_domain N omega).

Lemma synthetic_divisionE (cs : seq F) (z : F) :
  Poly cs = Poly (synthetic_division cs z).1 * ('X - z%:P)
            + ((synthetic_division cs z).2)%:P.
Proof.
elim: cs => [|c cs IH] /=; first by rewrite mul0r add0r.
case: (synthetic_division cs z) IH => q r /= IH.
rewrite !cons_poly_def IH polyCD polyCM.
ring.
Qed.

Lemma size_synthetic_division (cs : seq F) (z : F) :
  size (synthetic_division cs z).1 = size cs.
Proof. by elim: cs => //= c cs; case: (synthetic_division cs z) => q r /= ->. Qed.

Lemma quotient_polyE (p : {poly F}) (y z : F) :
  p.[z] = y -> p - y%:P = quotient_poly p y z * ('X - z%:P).
Proof.
move=> pz; rewrite /quotient_poly.
have := synthetic_divisionE (p - y%:P) z; rewrite polyseqK => eq.
have: (p - y%:P).[z] = 0 by rewrite hornerD hornerN hornerC pz subrr.
rewrite {1}eq hornerD hornerM hornerXsubC subrr mulr0 add0r hornerC => r0.
by rewrite {1}eq r0 addr0.
Qed.

Lemma size_quotient_poly (p : {poly F}) (y z : F) (n : nat) :
  0 < n -> size p <= n -> size (quotient_poly p y z) <= n.
Proof.
move=> n_gt0 szp; apply: leq_trans (size_Poly _) _.
rewrite size_synthetic_division; apply: leq_trans (size_polyD _ _) _.
by rewrite geq_max szp size_polyN (leq_trans (size_polyC_leq1 _)).
Qed.

Hypothesis omega_prim : (2 * N)%N.-primitive_root omega.

Lemma N_gt0 : 0 < N.
Proof. by have := prim_order_gt0 omega_prim; rewrite muln_gt0. Qed.

Lemma size_roots_of_unity : size roots = N.
Proof. by rewrite size_map size_iota. Qed.

Lemma size_extended_domain : size ext = (2 * N)%N.
Proof. by rewrite size_cat size_map size_roots_of_unity addnn -mul2n. Qed.

Lemma extended_domainE :
  ext
  = [seq omega ^+ i | i <- [seq (2 * i)%N | i <- iota 0 N]
                          ++ [seq (2 * i).+1%N | i <- iota 0 N]].
Proof.
rewrite /extended_domain /roots_of_unity map_cat -!map_comp; congr (_ ++ _).
by apply: eq_map => i /=; rewrite exprS.
Qed.

Lemma uniq_extended_domain : uniq ext.
Proof.
rewrite extended_domainE.
set evens := [seq (2 * i)%N | i <- iota 0 N].
set odds := [seq (2 * i).+1%N | i <- iota 0 N].
have lt_exps i : i \in evens ++ odds -> (i < 2 * N)%N.
  rewrite mem_cat => /orP[] /mapP[j]; rewrite mem_iota add0n /= => ltj ->.
    by rewrite ltn_pmul2l.
  by rewrite !mul2n ltn_Sdouble.
have inj : {in evens ++ odds &, injective (fun i => omega ^+ i)}.
  move=> i j /lt_exps lti /lt_exps ltj /eqP.
  by rewrite (eq_prim_root_expr omega_prim) !modn_small // => /eqP.
rewrite (map_inj_in_uniq inj) cat_uniq !map_inj_uniq ?iota_uniq ?andbT.
- by move=> i j /eqP; rewrite eqn_pmul2l // => /eqP.
- by move=> i j [] /eqP; rewrite eqn_pmul2l // => /eqP.
- apply/hasPn => _ /mapP[j _ ->]; apply/negP => /mapP[i _] /(congr1 odd).
  by rewrite /= !mul2n !odd_double.
Qed.

Lemma uniq_roots_of_unity : uniq roots.
Proof. by have := uniq_extended_domain; rewrite cat_uniq => /and3P[]. Qed.

Local Notation zeta := (omega ^+ 2).

Lemma zeta_prim : N.-primitive_root zeta.
Proof.
have := exp_prim_root omega_prim 2.
by rewrite gcdnMr mulKn.
Qed.

Lemma roots_of_unityE : roots = [seq zeta ^+ i | i <- iota 0 N].
Proof. by apply: eq_map => i; rewrite exprM. Qed.

Lemma prod_roots_of_unity :
  \prod_(c <- roots) ('X - c%:P) = 'X^N - 1 :> {poly F}.
Proof.
rewrite roots_of_unityE big_map -(factor_Xn_sub_1 zeta_prim).
by rewrite /index_iota subn0.
Qed.

Lemma root_of_unity_exp (x : F) : x \in roots -> x ^+ N = 1.
Proof.
rewrite roots_of_unityE => /mapP[i _ ->].
by rewrite exprAC (prim_expr_order zeta_prim) expr1n.
Qed.

Lemma root_of_unity_neq0 (x : F) : x \in roots -> x != 0.
Proof.
move/root_of_unity_exp => xN; apply: contra_eq_neq xN => ->.
by rewrite expr0n gtn_eqF ?N_gt0 // eq_sym oner_eq0.
Qed.

Lemma vanishing_split (x w : F) :
  x \in roots ->
  (w - x) * \prod_(c <- roots | c != x) (w - c) = w ^+ N - 1.
Proof.
move=> xr; have := congr1 (fun q : {poly F} => q.[w]) prod_roots_of_unity.
rewrite /= horner_prod hornerD hornerN hornerXn hornerC => <-.
rewrite (bigD1_seq x) ?uniq_roots_of_unity //= hornerXsubC; congr (_ * _).
by apply: eq_bigr => c _; rewrite hornerXsubC.
Qed.

Lemma vanishing_cofactor_self (x : F) :
  x \in roots ->
  \prod_(c <- roots | c != x) (x - c) = N%:R * x ^+ N.-1.
Proof.
move=> xr.
pose Mp : {poly F} := \prod_(c <- roots | c != x) ('X - c%:P).
have eq1 : ('X - x%:P) * Mp = 'X^N - 1.
  by rewrite -prod_roots_of_unity (bigD1_seq x) ?uniq_roots_of_unity.
have eq2 : 'X^N - 1 = ('X - x%:P) * \sum_(i < N) 'X^(N.-1 - i) * x%:P ^+ i.
  by rewrite -subrXX -polyC_exp root_of_unity_exp.
have eqM : Mp = \sum_(i < N) 'X^(N.-1 - i) * x%:P ^+ i.
  by apply: (mulfI (negbT (polyXsubC_eq0 x))); rewrite eq1 eq2.
have -> : \prod_(c <- roots | c != x) (x - c) = Mp.[x].
  by rewrite horner_prod; apply: eq_bigr => c _; rewrite hornerXsubC.
have term (i : 'I_N) : ('X^(N.-1 - i) * x%:P ^+ i).[x] = x ^+ N.-1.
  rewrite hornerM hornerXn -polyC_exp hornerC -exprD subnK //.
  by rewrite -ltnS prednK ?N_gt0.
rewrite eqM horner_sum (eq_bigr _ (fun i _ => term i)).
by rewrite sumr_const card_ord mulr_natl.
Qed.

Lemma natN_neq0 : N%:R != 0 :> F.
Proof. exact: (prim_root_natf_neq0 zeta_prim). Qed.

Lemma lagrange_basis_root (x z : F) :
  x \in roots -> z \notin roots ->
  (lagrange_basis roots x).[z]
  = (z ^+ N - 1) / N%:R * (x / (z - x)).
Proof.
move=> xr zr; rewrite horner_prod.
have factor (c : F) :
  ((x - c)^-1 *: ('X - c%:P)).[z] = (x - c)^-1 * (z - c).
  by rewrite hornerZ hornerXsubC.
rewrite (eq_bigr _ (fun c _ => factor c)).
rewrite big_split /= prodfV vanishing_cofactor_self //.
have zx : z - x != 0.
  by rewrite subr_eq0; apply: contraNneq zr => ->.
have -> : \prod_(c <- roots | c != x) (z - c) = (z ^+ N - 1) / (z - x).
  by rewrite -(vanishing_split z xr) mulrAC divff // mul1r.
have x0 := root_of_unity_neq0 xr.
have -> : x ^+ N.-1 = x^-1.
  apply: (mulfI x0); rewrite -exprS prednK ?N_gt0 // root_of_unity_exp //.
  by rewrite divff.
have n0 := natN_neq0.
by field; rewrite n0 x0 zx.
Qed.

Lemma barycentric_evalE (ys : seq F) (z : F) :
  barycentric_eval roots ys z = (interpolate roots ys).[z].
Proof.
rewrite /barycentric_eval; case: ifPn => [zr|zr].
  by rewrite -{2}(nth_index 0 zr) interpolateE ?uniq_roots_of_unity ?index_mem.
rewrite horner_sum size_roots_of_unity mulr_sumr.
have szr := size_roots_of_unity.
rewrite /interpolate; move: (size roots) szr => n szr; subst n.
apply: eq_bigr => i _; rewrite hornerZ lagrange_basis_root //.
  by rewrite mem_nth // size_roots_of_unity.
by rewrite -(mulrA ys`_i) mulrCA.
Qed.

End Domain.

(** ** The encoding of field elements and blobs *)

Section FieldEncoding.

Local Open Scope ring_scope.

Variable p : nat.
Local Notation Fr := 'F_p.
Hypothesis p_prime : prime p.
Hypothesis p_fits : (p <= 256 ^ 32)%N.

Lemma fr_val_lt (x : Fr) : (x < p)%N.
Proof. by rewrite -[X in (_ < X)%N](Fp_cast p_prime). Qed.

Lemma val_inZp_small (n : nat) : (n < p)%N -> (inZp n : Fr) = n :> nat.
Proof. by move=> ltn; rewrite /= (Fp_cast p_prime) modn_small. Qed.

Lemma size_bytes_of_fr (x : Fr) : size (bytes_of_fr x) = 32%N.
Proof. exact: size_bytes_of_nat. Qed.

Lemma bytes_of_frK (x : Fr) : fr_of_bytes p (bytes_of_fr x) = Some x.
Proof.
have lt := leq_trans (fr_val_lt x) p_fits.
by rewrite /fr_of_bytes /bytes_of_fr bytes_of_natK modn_small // fr_val_lt valZpK.
Qed.

Lemma fr_of_bytesK (bs : Bytes32) (x : Fr) :
  size bs = 32%N -> fr_of_bytes p bs = Some x -> bytes_of_fr x = bs.
Proof.
rewrite /fr_of_bytes /bytes_of_fr => sz; case: ifP => // ltn [<-].
by rewrite val_inZp_small // -sz nat_of_bytesK.
Qed.

Lemma decode_all_map (xs : seq Fr) :
  decode_all p [seq bytes_of_fr x | x <- xs] = Some xs.
Proof. by elim: xs => //= x xs ->; rewrite bytes_of_frK. Qed.

Lemma decode_allK (bss : seq Bytes32) (xs : seq Fr) :
  all (fun bs => size bs == 32%N) bss -> decode_all p bss = Some xs ->
  [seq bytes_of_fr x | x <- xs] = bss.
Proof.
elim: bss xs => [|bs bss IH] xs /=; first by move=> _ [<-].
case/andP=> /eqP sz szs; case E: (fr_of_bytes p bs) => [x|] //.
case D: (decode_all p bss) => [xs'|] //= [<-] /=.
by rewrite (fr_of_bytesK sz E) (IH _ szs D).
Qed.

Lemma decode_all_canonical (bss : seq Bytes32) :
  all (fun bs => nat_of_bytes bs < p)%N bss ->
  exists2 xs, decode_all p bss = Some xs & size xs = size bss.
Proof.
elim: bss => [|bs bss IH] /=; first by exists [::].
case/andP=> lt /IH[xs -> sz]; rewrite /fr_of_bytes lt /=.
by eexists; [reflexivity | rewrite /= sz].
Qed.

Variable N : nat.

Lemma sumn_nseq_mul (n m : nat) : sumn (nseq n m) = (n * m)%N.
Proof. by rewrite sumn_nseq mulnC. Qed.

Lemma valid_Blob_evaluations (b : Blob) :
  valid_Blob p N b ->
  exists ys, [/\ blob_evaluations p N b = Some ys, size ys = N
               & flatten [seq bytes_of_fr y | y <- ys] = b].
Proof.
case/andP=> /eqP szb canon; rewrite /blob_evaluations szb eqxx /=.
have [ys dec szys] := decode_all_canonical canon; exists ys; split=> //.
  by rewrite szys size_reshape size_nseq.
rewrite (decode_allK _ dec) ?reshapeKr ?sumn_nseq_mul ?szb //.
have := @reshapeKl _ (nseq N 32) b; rewrite sumn_nseq_mul szb leqnn.
rewrite /shape => /(_ isT) sh.
by apply/allP => c cin; have := map_f size cin; rewrite sh mem_nseq =>
  /andP[_ /eqP ->].
Qed.

End FieldEncoding.

(** ** Properties of the bindings over the modelled library *)

Section CoreProperties.

Local Open Scope ring_scope.

Variable p : nat.
Local Notation Fr := 'F_p.
Hypothesis p_prime : prime p.
Hypothesis p_fits : (p <= 256 ^ 32)%N.

Variables (N cell_size : nat).
Hypothesis cell_size_gt0 : (0 < cell_size)%N.
Hypothesis cell_size_dvd : (cell_size %| N)%N.

Variable omega : Fr.
Hypothesis omega_prim : (2 * N)%N.-primitive_root omega.

Variable curve : PairingGroups Fr.
Variable env : Collaborators curve.

Local Notation lib := (spec_library N cell_size omega env).
Local Notation macros := (spec_macros N cell_size env).
Local Notation cells := (cells_per_ext_blob N cell_size).
Local Notation roots := (roots_of_unity N omega).
Local Notation ext := (extended_domain N omega).

(** *** The partition into cells *)

Lemma cells_mul : (cells * cell_size)%N = (2 * N)%N.
Proof. by rewrite /cells_per_ext_blob divnK // dvdn_mull. Qed.

Lemma half_cells_mul : (cells %/ 2 * cell_size)%N = N.
Proof.
by rewrite /cells_per_ext_blob -muln_divA // mulKn // divnK.
Qed.

Lemma size_cells_of (T : Type) (v : seq T) :
  size (cells_of N cell_size v) = cells.
Proof. by rewrite size_reshape size_nseq. Qed.

Lemma flatten_cells_of (T : Type) (v : seq T) :
  size v = (2 * N)%N -> flatten (cells_of N cell_size v) = v.
Proof. by move=> sz; rewrite reshapeKr // sumn_nseq_mul cells_mul sz. Qed.

Lemma shape_cells_of (T : Type) (v : seq T) :
  size v = (2 * N)%N -> shape (cells_of N cell_size v) = nseq cells cell_size.
Proof. by move=> sz; rewrite reshapeKl // sumn_nseq_mul cells_mul sz. Qed.

Lemma all_size_cells_of (T : Type) (v : seq T) :
  size v = (2 * N)%N ->
  all (fun c => size c == cell_size) (cells_of N cell_size v).
Proof.
move=> sz.
have -> : all (fun c : seq T => size c == cell_size) (cells_of N cell_size v)
          = all (pred1 cell_size) (shape (cells_of N cell_size v)).
  by rewrite /shape all_map.
by rewrite shape_cells_of // all_nseq /= eqxx orbT.
Qed.

Lemma nth_cells_of (T : Type) (v : seq T) (id : nat) :
  (id < cells)%N ->
  nth [::] (cells_of N cell_size v) id
  = take cell_size (drop (id * cell_size) v).
Proof.
move=> lt; rewrite nth_reshape nth_nseq lt; congr (take _ (drop _ _)).
by rewrite take_nseq ?sumn_nseq_mul // ltnW.
Qed.

Lemma nth_cells_of_map (T : Type) (f : Fr -> T) (xs : seq Fr) (id : nat) :
  (id < cells)%N ->
  nth [::] (cells_of N cell_size [seq f x | x <- xs]) id
  = [seq f x | x <- cell_points cell_size xs id].
Proof. by move=> lt; rewrite nth_cells_of // /cell_points map_take map_drop. Qed.

(** *** Round trip through the cells *)

Lemma leq_N_2N : (N <= 2 * N)%N.
Proof. by rewrite leq_pmull. Qed.

Lemma evaluations_interpolate (ys : seq Fr) :
  size ys = N -> [seq (interpolate roots ys).[x] | x <- roots] = ys.
Proof.
move=> szys; apply: (@eq_from_nth _ 0); rewrite size_map size_roots_of_unity //.
move=> i lti; rewrite (nth_map 0) ?size_roots_of_unity //.
by rewrite interpolateE ?(uniq_roots_of_unity omega_prim) ?size_roots_of_unity.
Qed.

Lemma size_interpolate_roots (ys : seq Fr) :
  (size (interpolate roots ys) <= N)%N.
Proof. by rewrite -{2}(size_roots_of_unity N omega) size_interpolate. Qed.

Lemma cells_of_polynomial_ok (q : {poly Fr}) :
  let cs := cells_of_polynomial N cell_size ext q in
  [/\ size cs = cells, all (cell_sized cell_size) cs
    & flatten cs = [seq bytes_of_fr x | x <- [seq q.[x] | x <- ext]]].
Proof.
have sz : size [seq bytes_of_fr q.[x] | x <- ext] = (2 * N)%N.
  by rewrite size_map size_extended_domain.
split; first exact: size_cells_of.
  exact: all_size_cells_of.
by rewrite /cells_of_polynomial flatten_cells_of // -map_comp.
Qed.

Lemma spec_cells_to_blob_polynomial (q : {poly Fr}) :
  (size q <= N)%N ->
  spec_cells_to_blob N cell_size omega (cells_of_polynomial N cell_size ext q)
  = (C_KZG_OK, flatten [seq bytes_of_fr y | y <- [seq q.[x] | x <- roots]]).
Proof.
move=> szq; have [szc sized flat] := cells_of_polynomial_ok q.
rewrite /spec_cells_to_blob szc eqxx sized /= flat (decode_all_map p_prime) //.
rewrite interpolate_horner ?(uniq_extended_domain omega_prim) //.
  by rewrite size_extended_domain (leq_trans szq) // leq_N_2N.
by rewrite ltnNge szq -map_comp.
Qed.

Lemma ComputeCells_valid (st : State lib) (b : Blob) :
  loaded st = true -> valid_Setup N omega (settings st) ->
  valid_Blob p N b ->
  exists (ys : seq Fr) (st1 : State lib),
    [/\ blob_evaluations p N b = Some ys, size ys = N
      & ComputeCells macros lib (Some b) st
        = Returned ((cells_of_polynomial N cell_size ext
                       (interpolate roots ys), None), st1)].
Proof.
move=> ld [tau [_ _ _ rootsE extE]] /(valid_Blob_evaluations p_prime)
  [ys [evals szys flat]].
exists ys; run_go; rewrite ld /= /spec_compute_cells_and_proofs /= evals /=.
by rewrite rootsE extE; eexists; split.
Qed.

(** C2.  With a valid setup loaded, for every valid blob [b]:
    [ComputeCells] and [ComputeCellsAndProofs] return the same
    [CELLS_PER_EXT_BLOB] cells without error, and [CellsToBlob] applied to
    these cells returns a blob equal to [b], byte for byte, without
    error. *)
Theorem cells_round_trip (st : State lib) (b : Blob) :
  loaded st = true -> valid_Setup N omega (settings st) ->
  valid_Blob p N b ->
  exists (cs : seq Cell) (proofs : seq KZGProof) (st1 st2 : State lib),
    [/\ ComputeCells macros lib (Some b) st = Returned ((cs, None), st1),
        ComputeCellsAndProofs macros lib (Some b) st
        = Returned ((cs, proofs, None), st2),
        size cs = cells
      & forall st' : State lib, loaded st' = true ->
        exists st'', CellsToBlob macros lib cs st'
                     = Returned ((b, None), st'')].
Proof.
move=> ld [tau [_ _ _ rootsE extE]] /(valid_Blob_evaluations p_prime)
  [ys [evals szys flat]].
run_go; rewrite ld /= /spec_compute_cells_and_proofs /= evals /= rootsE extE.
do 4!eexists; split; try reflexivity; first by rewrite size_cells_of.
move=> st' ld'; rewrite ld' /= spec_cells_to_blob_polynomial /=.
  exact: size_interpolate_roots.
by rewrite evaluations_interpolate // flat; eexists.
Qed.

(** *** Commitments and the pairing identity *)

Hypothesis laws : pairing_laws curve.

Lemma pairing0l (R : G2 curve) : pairing (0 : G1 curve) R = 0.
Proof.
have /eqP := pairing_linear_l laws 1 0 0 R.
rewrite scale1r addr0 scale1r -[X in X == _]addr0 (inj_eq (addrI _)).
by rewrite eq_sym => /eqP.
Qed.

Lemma pairingZl (a : Fr) (P : G1 curve) (R : G2 curve) :
  pairing (a *: P) R = a *: pairing P R.
Proof.
by have := pairing_linear_l laws a P 0 R; rewrite addr0 pairing0l addr0.
Qed.

Lemma pairing0r (P : G1 curve) : pairing P (0 : G2 curve) = 0.
Proof.
have /eqP := pairing_linear_r laws 1 P 0 0.
rewrite scale1r addr0 scale1r -[X in X == _]addr0 (inj_eq (addrI _)).
by rewrite eq_sym => /eqP.
Qed.

Lemma pairingZr (a : Fr) (P : G1 curve) (R : G2 curve) :
  pairing P (a *: R) = a *: pairing P R.
Proof.
by have := pairing_linear_r laws a P R 0; rewrite addr0 pairing0r addr0.
Qed.

Lemma commit_g1E (s : Setup curve) (q : {poly Fr}) (tau : Fr) :
  (forall i, (i < size (g1_powers s))%N ->
             (g1_powers s)`_i = tau ^+ i *: g1 curve) ->
  (size q <= size (g1_powers s))%N ->
  commit_g1 s q = q.[tau] *: g1 curve.
Proof.
move=> powers szq; rewrite /commit_g1 horner_coef scaler_suml.
apply: eq_bigr => i _; rewrite powers ?scalerA //.
exact: leq_trans (ltn_ord i) szq.
Qed.

Lemma pairing_check_quotient (s : Setup curve) (q : {poly Fr}) (z tau : Fr) :
  (g2_powers s)`_1 = tau *: g2 curve ->
  pairing_check s (q.[tau] *: g1 curve) z q.[z]
    ((quotient_poly q q.[z] z).[tau] *: g1 curve).
Proof.
move=> tau2; rewrite /pairing_check tau2 -!scalerBl !pairingZl pairingZr.
rewrite scalerA; apply/eqP; congr (_ *: _).
have /(congr1 (fun r : {poly Fr} => r.[tau])) := quotient_polyE (erefl q.[z]).
by rewrite hornerD hornerN hornerC hornerM hornerXsubC.
Qed.

Hypothesis N_gt1 : (1 < N)%N.

(** C3.  With a valid setup loaded, for every valid blob [b] and every
    canonical evaluation point [z]: [ComputeKZGProof] returns a proof and
    a value [y] without error, [BlobToKZGCommitment] returns a commitment
    without error, and [VerifyKZGProof] on that commitment, [z], [y] and
    the proof returns [true] without error. *)
Theorem computed_proof_verifies (st : State lib) (b : Blob) (z : Bytes32) :
  loaded st = true -> valid_Setup N omega (settings st) ->
  valid_Blob p N b -> canonical p z ->
  exists (proof : KZGProof) (y : Bytes32) (commitment : KZGCommitment)
         (st1 st2 st3 : State lib),
    [/\ ComputeKZGProof lib (Some b) z st = Returned ((proof, y, None), st1),
        BlobToKZGCommitment lib (Some b) st
        = Returned ((commitment, None), st2)
      & VerifyKZGProof lib commitment z y proof st
        = Returned ((true, None), st3)].
Proof.
move=> ld [tau [[sz1 sz2] pow1 pow2 rootsE extE]]
  /(valid_Blob_evaluations p_prime) [ys [evals szys flat]] /andP[_ ltz].
run_go; rewrite ld /= /spec_compute_kzg_proof /spec_blob_to_kzg_commitment /=.
rewrite evals /fr_of_bytes ltz /= rootsE.
do 6!eexists; split; try reflexivity.
rewrite /spec_verify_kzg_proof !(decompressK laws) /fr_of_bytes ltz.
rewrite -/(fr_of_bytes p _) (bytes_of_frK p_prime p_fits) /=.
set q := interpolate roots ys; set zf := inZp _.
have szq : (size q <= size (g1_powers (settings st)))%N.
  exact: leq_trans (size_interpolate_roots ys) sz1.
rewrite (barycentric_evalE omega_prim) -/q.
have szQ : (size (quotient_poly q q.[zf] zf)
            <= size (g1_powers (settings st)))%N.
  apply: leq_trans sz1; apply: size_quotient_poly; first exact: ltnW.
  exact: size_interpolate_roots.
rewrite !(commit_g1E pow1) // pairing_check_quotient //.
by rewrite pow2 ?expr1 // (leq_trans N_gt1).
Qed.

(** C4.  With a setup loaded, [VerifyBlobKZGProofBatch] applied to empty
    slices returns [true] without error. *)
Theorem empty_batch_verifies (st : State lib) :
  loaded st = true ->
  exists st' : State lib,
    VerifyBlobKZGProofBatch lib [::] [::] [::] st
    = Returned ((true, None), st').
Proof.
move=> ld; run_go; rewrite ld /= /spec_verify_blob_kzg_proof_batch /=.
by rewrite !big_ord0 !pairing0l eqxx; eexists.
Qed.

(** *** Recovery *)

Lemma take_drop_iota (T : Type) (x0 : T) (s : seq T) (k n : nat) :
  (k + n <= size s)%N ->
  take n (drop k s) = [seq nth x0 s j | j <- iota k n].
Proof.
move=> le; have szd : (n <= size (drop k s))%N.
  by rewrite size_drop leq_subRL ?(leq_trans (leq_addr _ _) le).
apply: (@eq_from_nth _ x0); rewrite size_take_min (minn_idPl szd).
  by rewrite size_map size_iota.
move=> i lti; rewrite nth_take // nth_drop (nth_map 0%N) ?size_iota //.
by rewrite nth_iota.
Qed.

Local Notation cell_indices := (cell_indices cell_size).

Lemma cell_indicesP (ids : seq nat) (j : nat) :
  reflect (exists2 id, id \in ids & (id * cell_size <= j < id.+1 * cell_size)%N)
          (j \in cell_indices ids).
Proof.
apply: (iffP flattenP) => [[s /mapP[id idin ->]]|[id idin jin]].
  by rewrite mem_iota => jin; exists id; rewrite // mulSn addnC.
exists (iota (id * cell_size) cell_size).
  by apply/mapP; exists id.
by rewrite mem_iota addnC -mulSn.
Qed.

Lemma cell_index_div (id j : nat) :
  (id * cell_size <= j < id.+1 * cell_size)%N -> (j %/ cell_size)%N = id.
Proof.
case/andP=> le lt; rewrite -{1}(subnKC le) divnMDl // divn_small ?addn0 //.
by rewrite ltn_subLR // addnC -mulSn.
Qed.

Lemma uniq_cell_indices (ids : seq nat) : uniq ids -> uniq (cell_indices ids).
Proof.
elim: ids => //= id ids IH /andP[nin /IH uids].
rewrite /cell_indices /= cat_uniq iota_uniq uids andbT /=.
apply/hasPn => j /cell_indicesP[id' id'in /cell_index_div jdiv].
rewrite mem_iota addnC -mulSn; apply/negP => /cell_index_div.
by rewrite jdiv => eq; rewrite -eq id'in in nin.
Qed.

Lemma cell_indices_lt (ids : seq nat) (j : nat) :
  all (fun id => id < cells)%N ids -> j \in cell_indices ids ->
  (j < 2 * N)%N.
Proof.
move/allP=> lt /cell_indicesP[id /lt ltid /andP[_ ltj]].
by apply: leq_trans ltj _; rewrite -cells_mul leq_mul2r ltid orbT.
Qed.

Lemma cell_pointsE (id : nat) :
  (id < cells)%N ->
  cell_points cell_size ext id
  = [seq nth 0 ext j | j <- iota (id * cell_size) cell_size].
Proof.
move=> lt; apply: take_drop_iota.
by rewrite size_extended_domain -cells_mul addnC -mulSn leq_mul2r lt orbT.
Qed.

Lemma known_pointsE (ids : seq nat) :
  all (fun id => id < cells)%N ids ->
  flatten [seq cell_points cell_size ext id | id <- ids]
  = [seq nth 0 ext j | j <- cell_indices ids].
Proof.
move=> lt; rewrite /cell_indices map_flatten -map_comp; congr flatten.
by apply/eq_in_map => id /(allP lt) /cell_pointsE.
Qed.

Lemma uniq_known_points (ids : seq nat) :
  uniq ids -> all (fun id => id < cells)%N ids ->
  uniq (flatten [seq cell_points cell_size ext id | id <- ids]).
Proof.
move=> uids lt; rewrite known_pointsE // map_inj_in_uniq ?uniq_cell_indices //.
move=> i j /(cell_indices_lt lt) lti /(cell_indices_lt lt) ltj /eqP.
by rewrite nth_uniq ?size_extended_domain ?(uniq_extended_domain omega_prim)
  // => /eqP.
Qed.

Lemma size_known_points (ids : seq nat) :
  all (fun id => id < cells)%N ids ->
  size (flatten [seq cell_points cell_size ext id | id <- ids])
  = (size ids * cell_size)%N.
Proof.
move=> lt; rewrite known_pointsE // size_map /cell_indices size_flatten.
rewrite /shape -map_comp (@eq_map _ _ _ (fun=> cell_size)).
  by move=> id /=; rewrite size_iota.
by elim: (ids) => //= _ ids' ->; rewrite mulSn.
Qed.

Lemma spec_recover_rejects (ids : seq uint64) (cs : seq Cell)
    (s : Setup curve) :
  size ids = size cs ->
  [|| (size cs < cells %/ 2)%N, ~~ uniq ids
    | has (fun id => cells <= id)%N ids] ->
  (spec_recover_all_cells N cell_size ids cs (size cs) s).1
  = C_KZG_BADARGS.
Proof.
move=> szids bad; rewrite /spec_recover_all_cells.
have -> : take (size cs) ids = ids by rewrite -szids take_size.
rewrite take_size.
case: ifP => // few; case: ifPn => // /negbNE inrange.
case: ifPn => // /negbNE uids.
case/or3P: bad; rewrite ?few ?uids // => /hasP[id idin].
by rewrite leqNgt (allP inrange).
Qed.

Lemma spec_recover_cells (ids : seq uint64) (q : {poly Fr})
    (s : Setup curve) :
  fft_ext_roots s = ext -> (size q <= N)%N ->
  uniq ids -> all (fun id => id < cells)%N ids ->
  (cells %/ 2 <= size ids)%N ->
  let all_cells := cells_of_polynomial N cell_size ext q in
  let known := [seq nth [::] all_cells id | id <- ids] in
  spec_recover_all_cells N cell_size ids known (size known) s
  = (C_KZG_OK, all_cells).
Proof.
move=> extE szq uids inrange enough all_cells known.
pose xs := flatten [seq cell_points cell_size ext id | id <- ids].
pose g (x : Fr) : Bytes32 := bytes_of_fr q.[x].
have knownE : known = [seq [seq g x | x <- cell_points cell_size ext id]
                      | id <- ids].
  by apply/eq_in_map => id /(allP inrange) lt; rewrite nth_cells_of_map.
have flat : flatten known
            = [seq bytes_of_fr y | y <- [seq q.[x] | x <- xs]].
  rewrite knownE.
  have -> : [seq [seq g x | x <- cell_points cell_size ext id] | id <- ids]
            = map (map g) [seq cell_points cell_size ext id | id <- ids].
    by rewrite -map_comp.
  by rewrite -map_flatten -/xs -map_comp.
have sized : all (cell_sized cell_size) known.
  rewrite knownE all_map; apply/allP => id /(allP inrange) lt /=.
  by rewrite /cell_sized size_map cell_pointsE // size_map size_iota.
have szxs : (N <= size xs)%N.
  by rewrite size_known_points // -half_cells_mul leq_mul2r enough orbT.
rewrite /spec_recover_all_cells size_map take_size.
rewrite -[X in take X _](size_map (nth [::] all_cells)) take_size -/known.
rewrite ltnNge enough inrange uids sized /= flat (decode_all_map p_prime) //.
rewrite extE -/xs interpolate_horner ?uniq_known_points //; last first.
  by rewrite ltnNge szq.
exact: leq_trans szq szxs.
Qed.

(** C6.  With a setup loaded, [RecoverAllCells] returns [ErrBadArgs]
    whenever fewer than [CELLS_PER_EXT_BLOB / 2] cells are supplied,
    whenever a cell id is duplicated and whenever a cell id is out of
    range.  With a valid setup loaded, given at least
    [CELLS_PER_EXT_BLOB / 2] distinct ids in range with the cells
    [ComputeCells] returns for a valid blob at these ids, it returns all
    the cells of that blob, byte for byte, without error. *)
Theorem recover_all_cells_behaviour (st : State lib) (ids : seq uint64)
    (cs : seq Cell) :
  loaded st = true ->
  let BadArgs :=
    exists st' : State lib,
      RecoverAllCells macros lib ids cs st
      = Returned ((zero_Cells macros, Some ErrBadArgs), st') in
  [/\ (size cs < cells %/ 2)%N -> BadArgs,
      ~~ uniq ids -> BadArgs,
      has (fun id => cells <= id)%N ids -> BadArgs
    & forall (b : Blob) (all_cells : seq Cell) (st1 : State lib),
        valid_Setup N omega (settings st) -> valid_Blob p N b ->
        ComputeCells macros lib (Some b) st
        = Returned ((all_cells, None), st1) ->
        uniq ids -> all (fun id => id < cells)%N ids ->
        (cells %/ 2 <= size ids)%N ->
        exists st' : State lib,
          RecoverAllCells macros lib ids
            [seq nth [::] all_cells id | id <- ids] st
          = Returned ((all_cells, None), st')].
Proof.
move=> ld /=.
have reject : [|| (size cs < cells %/ 2)%N, ~~ uniq ids
                | has (fun id => cells <= id)%N ids] ->
    exists st' : State lib,
      RecoverAllCells macros lib ids cs st
      = Returned ((zero_Cells macros, Some ErrBadArgs), st').
  move=> bad; run_go; rewrite ld /=.
  case: eqP => [szids|_] /=; last by eexists.
  have := spec_recover_rejects (settings st) szids bad.
  by case: (spec_recover_all_cells _ _ _ _ _ _) => r rec /= ->; eexists.
split; try by move=> bad; apply: reject; rewrite bad ?orbT.
move=> b all_cells st1 [tau [_ _ _ rootsE extE]]
  /(valid_Blob_evaluations p_prime) [ys [evals szys flat]].
run_go; rewrite ld /= /spec_compute_cells_and_proofs /= evals /= rootsE extE.
case=> <- _ uids inrange enough; rewrite size_map eqxx /=.
rewrite -[X in spec_recover_all_cells _ _ _ _ X]
  (size_map (nth [::] (cells_of_polynomial N cell_size ext
                         (interpolate roots ys))) ids).
rewrite spec_recover_cells ?size_interpolate_roots //=.
by eexists.
Qed.

End CoreProperties.

(** ** The small instance: the hypotheses hold, and the bindings run *)

Section SmallInstanceProperties.

Local Open Scope ring_scope.

Local Notation Fs := 'F_small_p.

Lemma small_p_prime : prime small_p.
Proof. by []. Qed.

Lemma small_p_fits : (small_p <= 256 ^ 32)%N.
Proof.
apply: (@leq_trans (256 ^ 1)%N); first by [].
by rewrite leq_exp2l.
Qed.

Lemma small_omega_prim : (2 * 4)%N.-primitive_root small_omega.
Proof.
apply/andP; split=> //; apply/forallP => i; rewrite unity_rootE.
by case: i => [[|[|[|[|[|[|[|[|i]]]]]]]] lt] //; apply/eqP; vm_compute.
Qed.

Lemma small_laws : pairing_laws small_curve.
Proof.
split.
- by move=> a P Q R; rewrite /= mulrDl -scalerAl.
- by move=> a P Q R; rewrite /= mulrDr -scalerAr.
- move=> x; rewrite -[compress x]/(bytes_of_nat 48 (x : Fs)).
  rewrite -[decompress _]/small_decompress /small_decompress bytes_of_natK.
  have lt : ((x : Fs) < small_p)%N.
    by rewrite -[X in (_ < X)%N](Fp_cast small_p_prime).
  have le : (small_p <= 256 ^ 48)%N.
    by apply: leq_trans small_p_fits _; rewrite leq_exp2l.
  by rewrite modn_small ?(leq_trans lt le) // lt valZpK.
Qed.

Lemma small_setup_valid : valid_Setup 4 small_omega small_setup.
Proof.
have powers (G : lmodType Fs) (g : G) (i : nat) :
  (i < size [seq small_tau ^+ i *: g | i <- iota 0 4])%N ->
  [seq small_tau ^+ i *: g | i <- iota 0 4]`_i = small_tau ^+ i *: g.
  rewrite size_map size_iota => lti.
  by rewrite (nth_map 0%N) ?size_iota // nth_iota.
by exists small_tau; split=> // i; apply: powers.
Qed.

Lemma small_blob_valid : valid_Blob small_p 4 small_blob.
Proof. by vm_compute. Qed.

Lemma small_point_canonical : canonical small_p (small_fr Byte.x07).
Proof. by vm_compute. Qed.

End SmallInstanceProperties.

(** ** The theorems at the small instance *)

Section SmallInstanceRuns.

Local Open Scope ring_scope.

(** C1: before a setup is loaded [BlobToKZGCommitment] panics, and a
    second [LoadTrustedSetup] panics; neither returns an error. *)
Lemma setup_misuse_is_not_an_error :
  invoke small_macros small_library
    (Call_BlobToKZGCommitment (Some small_blob))
    (initial_State small_library)
  = Panicked not_loaded_msg
  /\ bind (LoadTrustedSetup small_macros small_library [::] [::])
       (fun _ => LoadTrustedSetup small_macros small_library [::] [::])
       (initial_State small_library)
     = Panicked already_loaded_msg.
Proof. by split. Qed.

Lemma setup_misuse_panics_small :
  invoke small_macros small_library Call_FreeTrustedSetup
    (initial_State small_library)
  = Panicked not_loaded_msg
  /\ invoke small_macros small_library (Call_LoadTrustedSetupFile "setup.txt")
       small_loaded
     = Panicked already_loaded_msg.
Proof.
split.
- exact: (proj1 (setup_misuse_panics small_macros Call_FreeTrustedSetup
                   (initial_State small_library)) (erefl _) (erefl _)).
- exact: (proj2 (setup_misuse_panics small_macros
                   (Call_LoadTrustedSetupFile "setup.txt") small_loaded)
            (erefl _) (erefl _)).
Defined.

Lemma cells_round_trip_small :
  exists (cs : seq Cell) (proofs : seq KZGProof)
         (st1 st2 : State small_library),
    [/\ ComputeCells small_macros small_library (Some small_blob) small_loaded
        = Returned ((cs, None), st1),
        ComputeCellsAndProofs small_macros small_library (Some small_blob)
          small_loaded
        = Returned ((cs, proofs, None), st2),
        size cs = cells_per_ext_blob 4 2
      & forall st' : State small_library, loaded st' = true ->
        exists st'', CellsToBlob small_macros small_library cs st'
                     = Returned ((small_blob, None), st'')].
Proof.
exact: (@cells_round_trip _ small_p_prime small_p_fits 4 2 isT _
          small_omega_prim small_curve small_env small_loaded small_blob
          (erefl true) small_setup_valid small_blob_valid).
Defined.

Lemma computed_proof_verifies_small :
  exists (proof : KZGProof) (y : Bytes32) (commitment : KZGCommitment)
         (st1 st2 st3 : State small_library),
    [/\ ComputeKZGProof small_library (Some small_blob) (small_fr Byte.x07)
          small_loaded
        = Returned ((proof, y, None), st1),
        BlobToKZGCommitment small_library (Some small_blob) small_loaded
        = Returned ((commitment, None), st2)
      & VerifyKZGProof small_library commitment (small_fr Byte.x07) y proof
          small_loaded
        = Returned ((true, None), st3)].
Proof.
exact: (@computed_proof_verifies _ small_p_prime small_p_fits 4 2 _
          small_omega_prim small_curve small_env small_laws isT small_loaded
          small_blob (small_fr Byte.x07) (erefl true) small_setup_valid
          small_blob_valid small_point_canonical).
Defined.

Lemma empty_batch_verifies_small :
  exists st' : State small_library,
    VerifyBlobKZGProofBatch small_library [::] [::] [::] small_loaded
    = Returned ((true, None), st').
Proof.
exact: (@empty_batch_verifies _ 4 2 small_omega small_curve small_env
          small_laws small_loaded (erefl true)).
Defined.

Lemma recover_all_cells_small :
  (exists st' : State small_library,
     RecoverAllCells small_macros small_library [:: 1; 3]%N [::] small_loaded
     = Returned ((zero_Cells small_macros, Some ErrBadArgs), st'))
  /\ (exists (all_cells : seq Cell) (st1 st' : State small_library),
        ComputeCells small_macros small_library (Some small_blob) small_loaded
        = Returned ((all_cells, None), st1)
        /\ RecoverAllCells small_macros small_library [:: 1; 3]%N
             [seq nth [::] all_cells id | id <- [:: 1; 3]%N] small_loaded
           = Returned ((all_cells, None), st')).
Proof.
have [few _ _ rec] :=
  @recover_all_cells_behaviour _ small_p_prime small_p_fits 4 2 isT isT _
    small_omega_prim small_curve small_env small_loaded [:: 1; 3]%N [::]
    (erefl true).
split; first exact: few.
have [ys [st1 [_ _ cc]]] :=
  @ComputeCells_valid _ small_p_prime 4 2 _ small_curve small_env
    small_loaded small_blob (erefl true) small_setup_valid small_blob_valid.
have [st' rr] :=
  rec small_blob _ st1 small_setup_valid small_blob_valid cc isT isT isT.
by eexists; exists st1, st'; split; [exact: cc | exact: rr].
Defined.

Lemma batch_length_mismatch_small :
  VerifyBlobKZGProofBatch small_library [:: small_blob] [::] [::] small_loaded
  = Returned ((false, Some ErrBadArgs), small_loaded)
  /\ VerifyCellProofBatch small_library [::] [:: 0%N] [:: 0%N; 1%N] [::] [::]
       small_loaded
     = Returned ((false, Some ErrBadArgs), small_loaded).
Proof.
have [blobs cells] :=
  @batch_length_mismatch_is_BadArgs small_library small_loaded
    [:: small_blob] [::] [::] [::] [:: 0%N] [:: 0%N; 1%N] [::] [::]
    (erefl true).
split; first by apply: blobs; case.
by apply: cells; case.
Defined.

Lemma nil_blob_handling_small :
  BlobToKZGCommitment small_library None small_loaded
  = Returned ((zero_KZGCommitment, Some ErrBadArgs), small_loaded)
  /\ (exists res st',
        ComputeCells small_macros small_library None small_loaded
        = Returned (res, st')
        /\ ccalls st' = [:: call_compute_cells_and_proofs None]).
Proof.
have [[commit _ _ _] [[res [st' [run calls _]]] _]] :=
  @nil_blob_handling small_macros small_library small_loaded
    (small_fr Byte.x07) zero_Bytes48 zero_Bytes48 (erefl true).
by split; [exact: commit | exists res, st'].
Defined.

Lemma returned_errors_are_typed_small : typed_error ErrBadArgs \/
  (exists2 r, ErrBadArgs = ErrUnexpectedFromC r & ~~ known_ret r).
Proof.
exact: (@returned_errors_are_typed small_macros small_library
          (Call_BlobToKZGCommitment None) small_loaded small_loaded
          (Value_Bytes48 zero_KZGCommitment) ErrBadArgs (erefl _)).
Defined.

(** C8: a failure that is a panic and not an error value, and an error
    value of [UnmarshalText] that is none of the three typed errors. *)
Lemma failures_outside_the_taxonomy :
  invoke small_macros small_library
    (Call_VerifyKZGProof zero_Bytes48 zero_Bytes32 zero_Bytes32 zero_Bytes48)
    (initial_State small_library)
  = Panicked not_loaded_msg
  /\ Bytes32_UnmarshalText zero_Bytes32 not_hex_text
     = Returned (zero_Bytes32, Some (HexInvalidByteError Byte.x67))
  /\ typed_error (HexInvalidByteError Byte.x67) = false.
Proof. by split; [| split; [vm_compute |]]. Qed.

(** C10: a text of the right length for a cell, with a character that is
    not a hexadecimal digit, for which [UnmarshalText] returns
    [ErrBadArgs] and not an error of [encoding/hex]. *)
Lemma Cell_UnmarshalText_inner_prefix :
  [/\ size (strip_0x inner_prefix_text) = (2 * BytesPerCell small_macros)%N,
      ~~ all is_hex_digit (strip_0x inner_prefix_text)
    & Cell_UnmarshalText small_macros (zero_Cell small_macros)
        inner_prefix_text
      = Returned (zero_Cell small_macros, Some ErrBadArgs)].
Proof. by split; vm_compute. Qed.

Lemma UnmarshalText_behaviour_small :
  [/\ exists b',
        Bytes32_UnmarshalText zero_Bytes32 not_hex_text
        = Returned (b', Some (HexInvalidByteError Byte.x67)),
      exists c',
        Cell_UnmarshalText small_macros (zero_Cell small_macros)
          inner_prefix_text
        = Returned (c', Some ErrBadArgs)
    & exists c',
        Cell_UnmarshalText small_macros (zero_Cell small_macros)
          bad_digit_then_prefix_text
        = Returned (c', Some (HexInvalidByteError Byte.x67))].
Proof.
have run input :=
  @UnmarshalText_behaviour small_macros (erefl _) (erefl _)
    zero_Bytes32 zero_Bytes48 (zero_Blob small_macros)
    (zero_Cell small_macros) input (erefl _) (erefl _)
    (size_nseq _ _) (size_nseq _ _) isT.
have [[_ _ _ b32] _ _ _] := run not_hex_text.
have [_ _ _ [_ _ _ cell1]] := run inner_prefix_text.
have [_ _ _ [_ _ _ cell2]] := run bad_digit_then_prefix_text.
split.
- exact: (b32 (erefl _) isT).
- exact: (cell1 (erefl _) isT).
- exact: (cell2 (erefl _) isT).
Defined.

End SmallInstanceRuns.

(** ** Further properties of the interface functions *)

Section InterfaceInvariants.

Variable k : CMacros.
Variable lib : CLibrary.

Lemma rcons_neq (T : Type) (s : seq T) (x : T) : rcons s x <> s.
Proof.
by move/(congr1 size); rewrite size_rcons => /eqP; rewrite eqn_leq ltnn.
Qed.

(** X1.  Whenever an interface function returns a non-nil [error], what it
    returns beside it is the zero value of its result type: nothing the C
    library wrote into the output buffers is handed on. *)
Theorem errors_carry_zero_values (c : call) (st st' : State lib)
    (v : value) (e : error) :
  invoke k lib c st = Returned ((v, Some e), st') -> v = zero_value k c.
Proof.
case: c => [g1 g2|f||[blob|]|[blob|] z|[blob|] c|c z y p|[blob|] c p|bs cs ps
           |blob|blob|cells|ids cells|c id cell p|cs rows cols cells ps];
  run_go; case: (loaded st) => //=; split_outcome => //; by case.
Qed.

(** X2.  An interface function other than the loaders and [FreeTrustedSetup]
    leaves the package variables [loaded] and [settings] as they were, and
    every interface function makes at most one call into the C library. *)
Theorem setup_is_read_only (c : call) (st st' : State lib)
    (r : value * option error) :
  invoke k lib c st = Returned (r, st') ->
  (writes_setup c = false ->
     loaded st' = loaded st /\ settings st' = settings st) /\
  (ccalls st' = ccalls st \/ exists cc, ccalls st' = rcons (ccalls st) cc).
Proof.
case: c => [g1 g2|f||[blob|]|[blob|] z|[blob|] c|c z y p|[blob|] c p|bs cs ps
           |blob|blob|cells|ids cells|c id cell p|cs rows cols cells ps];
  run_go; case ld: (loaded st) => //=; split_outcome => //; case=> _ <- /=;
  (split; first by rewrite ?ld); (try by left); by right; eexists.
Qed.

(** X3.  An interface function other than the two loaders panics exactly when
    no trusted setup is loaded: with a setup loaded it returns, whatever
    its arguments and whatever the C library does. *)
Theorem panics_iff_not_loaded (c : call) (st : State lib) :
  is_loader c = false ->
  (exists v, invoke k lib c st = Panicked v) <-> loaded st = false.
Proof.
case: c => [g1 g2|f||[blob|]|[blob|] z|[blob|] c|c z y p|[blob|] c p|bs cs ps
           |blob|blob|cells|ids cells|c id cell p|cs rows cols cells ps] //= _;
  run_go; case: (loaded st) => /=; split=> //; try (by move=> _; eexists);
  split_outcome => //; by case.
Qed.

(** X4.  When an interface function returns without having called the C
    library, it returns [ErrBadArgs] and leaves the package state as it
    was: the checks made on the Go side never report success and never
    report another error. *)
Theorem rejections_without_C_call_are_BadArgs (c : call) (st st' : State lib)
    (v : value) (e : option error) :
  invoke k lib c st = Returned ((v, e), st') -> ccalls st' = ccalls st ->
  e = Some ErrBadArgs /\ st' = st.
Proof.
case: c => [g1 g2|f||[blob|]|[blob|] z|[blob|] c|c z y p|[blob|] c p|bs cs ps
           |blob|blob|cells|ids cells|c id cell p|cs rows cols cells ps];
  run_go; case: (loaded st) => //=; split_outcome => //;
  case=> _ <- <- //= bad; by case: (rcons_neq bad).
Qed.

(** X5.  After [LoadTrustedSetup] or [LoadTrustedSetupFile] returns, a setup is
    loaded exactly when the returned [error] is nil: a load that failed can
    be tried again, a load that succeeded cannot. *)
Theorem loaded_iff_loader_succeeded (c : call) (st st' : State lib)
    (v : value) (e : option error) :
  is_loader c = true -> invoke k lib c st = Returned ((v, e), st') ->
  (loaded st' = true <-> e = None).
Proof.
case: c => [g1 g2|f|||||||||||||] //= _; run_go;
  case ld: (loaded st) => //=; split_outcome => //; case=> _ <- <- /=;
  by rewrite ?ld.
Qed.

(** X6.  Once [FreeTrustedSetup] has returned, every interface function other
    than the loaders panics with "trusted setup isn't loaded": the freed
    settings are never passed to the C library again. *)
Theorem use_after_free_panics (c : call) (st : State lib) :
  loaded st = true -> is_loader c = false ->
  bind (FreeTrustedSetup lib) (fun _ => invoke k lib c) st
  = Panicked not_loaded_msg.
Proof.
move=> ld; rewrite /bind /FreeTrustedSetup /get_loaded /set_loaded
  /C_call_out /bind ld /=.
by case: c => //= *; run_go.
Qed.

(** X7.  A setup that was loaded and freed leaves no trace: a loader called
    after a successful load and [FreeTrustedSetup] does what it does when
    called in the first place. *)
Theorem load_free_load (c1 c2 : call) (st st1 : State lib) (v : value) :
  is_loader c1 = true -> is_loader c2 = true ->
  invoke k lib c1 st = Returned ((v, None), st1) ->
  same_outcome
    (bind (invoke k lib c1)
       (fun _ => bind (FreeTrustedSetup lib) (fun _ => invoke k lib c2)) st)
    (invoke k lib c2 st).
Proof.
move=> l1 l2 run; rewrite {1}/bind run.
have [ld ld1] : loaded st = false /\ loaded st1 = true.
  case: c1 l1 run => [g1 g2|f|||||||||||||] //= _; run_go;
    case ld: (loaded st) => //=; split_outcome => //; by case=> _ <-.
rewrite /bind /FreeTrustedSetup /get_loaded /set_loaded /C_call_out /bind.
rewrite ld1 /=.
case: c2 l2 => [g1 g2|f|||||||||||||] //= _; run_go; rewrite ld /=;
  split_outcome => //; by do ?split.
Qed.

(** X8.  [makeErrorFromRet] keeps return codes apart: two codes with the same
    error are the same code. *)
Theorem makeErrorFromRet_inj (r1 r2 : C_KZG_RET) :
  makeErrorFromRet r1 = makeErrorFromRet r2 -> r1 = r2.
Proof.
by case: r1 r2 => [|[|[|[|r1]]]] [|[|[|[|r2]]]] //= [->].
Qed.

(** X9.  Called while no setup is loaded, [LoadTrustedSetup] returns exactly
    when the lengths of its two arguments are multiples of [BYTES_PER_G1]
    and of [BYTES_PER_G2], and [LoadTrustedSetupFile] returns exactly when
    the file can be opened; otherwise they panic. *)
Theorem loaders_return_iff (st : State lib) (g1Bytes g2Bytes : seq byte)
    (trustedSetupFile : string) :
  loaded st = false ->
  ((exists r st', LoadTrustedSetup k lib g1Bytes g2Bytes st = Returned (r, st'))
   <-> (BYTES_PER_G1 k %| size g1Bytes) && (BYTES_PER_G2 k %| size g2Bytes)) /\
  ((exists r st', LoadTrustedSetupFile lib trustedSetupFile st
                  = Returned (r, st'))
   <-> fopen_r lib trustedSetupFile <> None).
Proof.
move=> ld; split; run_go; rewrite ld /= /dvdn.
  case: (_ == 0) => /=; last by split=> // [[r [st' //]]].
  case: (_ == 0) => /=; last by split=> // [[r [st' //]]].
  by split=> // _; split_outcome => //; eexists; eexists.
case: (fopen_r _ _) => [fp|] /=; last by split=> // [[r [st' //]]].
by split=> // _; split_outcome => //; eexists; eexists.
Qed.

(** X10.  With a setup loaded, [RecoverAllCells] calls the C library
    exactly when [cellIds] and [cells] have the same length; otherwise it
    returns zero cells and [ErrBadArgs] and leaves the package state as it
    was. *)
Theorem RecoverAllCells_length_check (st : State lib) (cellIds : seq uint64)
    (cells : seq Cell) :
  loaded st = true ->
  exists r st',
    [/\ RecoverAllCells k lib cellIds cells st = Returned (r, st'),
        ccalls st' = rcons (ccalls st) call_recover_all_cells
        <-> size cellIds = size cells
      & size cellIds <> size cells ->
        r = (zero_Cells k, Some ErrBadArgs) /\ st' = st].
Proof.
move=> ld; run_go; rewrite ld /=.
case: eqP => [eq|neq] /=.
  by split_outcome => //; eexists; eexists; split.
eexists; eexists; split; first by reflexivity.
  by split=> [bad|//]; case: (rcons_neq (esym bad)).
by [].
Qed.

End InterfaceInvariants.

(** ** Further properties of the [UnmarshalText] methods *)

Section HexText.

(** X11.  [UnmarshalText] on [Bytes32], [Bytes48] and [Blob] (the body they
    share, for a receiver of [n] bytes), on a text of the right length that
    holds a character which is not a hexadecimal digit: the error is
    [hex.InvalidByteError] for the first such character of the text, and
    the receiver is left with the bytes decoded from the pairs of digits
    before it, the rest as it was. *)
Theorem UnmarshalText_first_bad_character (n : nat) (b input : seq byte) :
  size b = n -> size (strip_0x input) = 2 * n ->
  ~~ all is_hex_digit (strip_0x input) ->
  let s := strip_0x input in
  let i := first_bad_character s in
  i < size s /\
  UnmarshalText_array n b input
  = Returned (hex_bytes (take (2 * (i %/ 2)) s) ++ drop (i %/ 2) b,
              Some (HexInvalidByteError (nth Byte.x00 s i))).
Proof.
move=> szb szs bad /=; split; first exact: has_bad_character.
rewrite /UnmarshalText_array szs eqxx /= /hex_Decode.
have := @hex_Decode_from_first_bad n _ [::] b szs bad.
by rewrite szb leqnn /= divn2 mul2n => /(_ isT) ->.
Qed.

(** X12.  [UnmarshalText] on [Bytes32], [Bytes48] and [Blob] returns
    [ErrBadArgs] exactly when the text, after an optional ["0x"] prefix,
    has the wrong length; it never returns [hex.ErrLength] and never
    panics. *)
Theorem UnmarshalText_array_errors (n : nat) (b input : seq byte) :
  size b = n ->
  [/\ (exists b', UnmarshalText_array n b input
                  = Returned (b', Some ErrBadArgs))
      <-> size (strip_0x input) <> 2 * n,
      forall b', UnmarshalText_array n b input
                 <> Returned (b', Some HexErrLength)
    & forall v, UnmarshalText_array n b input <> Panicked v].
Proof.
move=> szb.
have [szs|/eqP nsz] := eqVneq (size (strip_0x input)) (2 * n); last first.
  rewrite (UnmarshalText_array_badlen _ nsz).
  by split=> //; split=> // _; exists b.
have [hs|nhs] := boolP (all is_hex_digit (strip_0x input)).
  by rewrite UnmarshalText_array_ok //; split=> //; split=> // [[b' //]].
have [b' [ch [-> _ _ _]]] := UnmarshalText_array_badchar szb szs nhs.
by split=> //; split=> // [[b'' //]].
Qed.

(** X13.  The ["0x"] prefix is optional: a text that does not itself start with
    ["0x"] is unmarshalled the same with and without the prefix, by all
    four methods. *)
Theorem UnmarshalText_prefix_is_optional (k : CMacros) (n : nat)
    (b : seq byte) (c : Cell) (s : seq byte) :
  ~~ has_0x_prefix s ->
  UnmarshalText_array n b [:: char_0, char_x & s] = UnmarshalText_array n b s
  /\ Cell_UnmarshalText k c [:: char_0, char_x & s] = Cell_UnmarshalText k c s.
Proof.
move=> no_prefix.
have strip : strip_0x [:: char_0, char_x & s] = strip_0x s.
  by rewrite /strip_0x {1}/has_0x_prefix !eqxx /= drop0 (negbTE no_prefix).
by rewrite /UnmarshalText_array /Cell_UnmarshalText strip.
Qed.

Lemma hex_bytes_values (s1 s2 : seq byte) :
  map hex_digit_value s1 = map hex_digit_value s2 ->
  hex_bytes s1 = hex_bytes s2.
Proof.
have [m] := ubnP (size s1).
elim: m s1 s2 => // m IH [|p [|q s1]] [|p2 [|q2 s2]] //= lt [-> -> es].
by rewrite (IH s1 s2) // -ltnS ltnW.
Qed.

(** X14.  [UnmarshalText] reads the values of the digits only: two texts of
    hexadecimal digits whose characters have the same values, such as the
    same digits in upper and in lower case, are unmarshalled the same. *)
Theorem UnmarshalText_reads_digit_values (n : nat) (b s1 s2 : seq byte) :
  size b = n -> all is_hex_digit s1 ->
  map fromHexChar s1 = map fromHexChar s2 ->
  UnmarshalText_array n b s1 = UnmarshalText_array n b s2.
Proof.
move=> szb hs1 eqv.
have szs : size s1 = size s2 by rewrite -(size_map fromHexChar) eqv size_map.
have hs : all (fun c => fromHexChar c != None) s1.
  by rewrite (eq_all (a2 := is_hex_digit)) // => c; rewrite is_hex_digitE.
have hs2 : all is_hex_digit s2.
  rewrite (eq_all (a2 := preim fromHexChar (fun v => v != None)));
    first by move=> c; rewrite is_hex_digitE.
  by rewrite -all_map -eqv all_map.
have eqb : hex_bytes s1 = hex_bytes s2.
  apply: hex_bytes_values.
  have val s : all is_hex_digit s ->
      map hex_digit_value s = map (odflt 0) (map fromHexChar s).
    move=> h; rewrite -map_comp; apply/eq_in_map => c /(allP h).
    exact: hex_digit_valueE.
  by rewrite !val // eqv.
have [sz|/eqP nsz] := eqVneq (size s1) (2 * n).
  rewrite (@UnmarshalText_array_ok n b s1) ?strip_0x_hex //.
  by rewrite (@UnmarshalText_array_ok n b s2) ?strip_0x_hex -?szs // eqb.
rewrite (@UnmarshalText_array_badlen n b s1) ?strip_0x_hex //.
by rewrite (@UnmarshalText_array_badlen n b s2) ?strip_0x_hex -?szs.
Qed.

Lemma foldl_hex_bytes (acc : nat) (s : seq byte) :
  all is_hex_digit s -> ~~ odd (size s) ->
  foldl (fun a b => a * 256 + byte_val b) acc (hex_bytes s)
  = foldl (fun a c => a * 16 + odflt 0 (fromHexChar c)) acc s.
Proof.
have [m] := ubnP (size s).
elim: m s acc => // m IH [|p [|q s]] acc //= lt /and3P[hp hq hs].
rewrite negbK => ev.
have ltm : size s < m by apply: ltnW.
rewrite -!hex_digit_valueE // -IH //.
congr foldl; rewrite byte_val_of_nat modn_small; last first.
  by rewrite mulnDl -mulnA addnA (mulnC 16 (hex_digit_value p)).
have lp := hex_digit_value_lt16 hp; have lq := hex_digit_value_lt16 hq.
apply: (@leq_trans (16 * hex_digit_value p + 16)); first by rewrite ltn_add2l.
by rewrite addnC -mulnS; apply: (@leq_mul 16 _ 16 16).
Qed.

(** X15.  On success the receiver holds the number the text denotes: the
    integer value of the decoded bytes, most significant byte first, is the
    value of the hexadecimal digits, most significant digit first. *)
Theorem UnmarshalText_value (n : nat) (b b' input : seq byte) :
  size b = n -> UnmarshalText_array n b input = Returned (b', None) ->
  nat_of_bytes b' = hex_value (strip_0x input).
Proof.
move=> szb.
have [szs|/eqP nsz] := eqVneq (size (strip_0x input)) (2 * n); last first.
  by rewrite (UnmarshalText_array_badlen _ nsz).
have [hs|nhs] := boolP (all is_hex_digit (strip_0x input)); last first.
  by have [b'' [ch [-> _ _ _]]] := UnmarshalText_array_badchar szb szs nhs.
rewrite UnmarshalText_array_ok // => -[<-].
by rewrite /nat_of_bytes /hex_value foldl_hex_bytes // szs mul2n odd_double.
Qed.

End HexText.

Section CellText.

Variable k : CMacros.

Hypothesis field_element_is_32_bytes : BYTES_PER_FIELD_ELEMENT k = 32.
Hypothesis cell_is_field_elements :
  BYTES_PER_CELL k = FIELD_ELEMENTS_PER_CELL k * 32.

(** X16.  [UnmarshalText] on a [Cell] is [UnmarshalText] on each of its field
    elements: when it succeeds, the field element at index [i] of the
    receiver is what the method of [Bytes32] yields on the [i]-th run of 64
    characters of the text. *)
Theorem Cell_UnmarshalText_by_field_element (c c' : Cell) (input : seq byte)
    (i : nat) :
  size c = FieldElementsPerCell k -> all has_size32 c ->
  Cell_UnmarshalText k c input = Returned (c', None) ->
  i < FieldElementsPerCell k ->
  Bytes32_UnmarshalText (nth [::] c i)
    (take 64 (drop (64 * i) (strip_0x input)))
  = Returned (nth [::] c' i, None).
Proof.
move=> szc sz32 run lti.
have [[succ _] val _ _] :=
  Cell_UnmarshalText_spec field_element_is_32_bytes cell_is_field_elements
    input szc sz32.
have [szs hs] := succ (ex_intro _ c' run); rewrite (val c' run).
set s := strip_0x input in szs hs *.
have sz64 : size s = 64 * FieldElementsPerCell k.
  by rewrite szs /BytesPerCell cell_is_field_elements mulnCA mulnC.
have le64 : 64 * i.+1 <= size s by rewrite sz64 leq_mul2l.
have szchunk : size (take 64 (drop (64 * i) s)) = 2 * 32.
  rewrite size_take_min size_drop; apply/minn_idPl.
  by rewrite sz64 -mulnBr leq_pmulr // subn_gt0.
have hschunk : all is_hex_digit (take 64 (drop (64 * i) s)).
  move: hs; rewrite -{1}(cat_take_drop (64 * i) s) all_cat => /andP[_].
  by rewrite -{1}(cat_take_drop 64 (drop _ s)) all_cat => /andP[].
have szci : size (nth [::] c i) = 32.
  by apply/eqP; move/all_nthP: sz32; apply; rewrite szc.
rewrite /Bytes32_UnmarshalText UnmarshalText_array_ok ?strip_0x_hex //.
rewrite nth_reshape nth_nseq lti take_nseq; first exact: ltnW.
have e64 : 2 * (i * 32) = 64 * i by rewrite mulnCA mulnC.
have -> : sumn (nseq i 32) = i * 32 by rewrite sumn_nseq_mul.
rewrite hex_bytes_drop ?hex_bytes_take.
  by rewrite e64 (leq_trans _ le64) // leq_mul2l leqnSn.
by rewrite e64.
Qed.

End CellText.

(** ** The further properties at the small instance *)

Section SmallInstanceChecks.

Lemma errors_carry_zero_values_small :
  Value_Cells (zero_Cells small_macros)
  = zero_value small_macros (Call_ComputeCells None).
Proof.
exact: (@errors_carry_zero_values small_macros small_library
          (Call_ComputeCells None) small_loaded
          (small_after_call (call_compute_cells_and_proofs None))
          (Value_Cells (zero_Cells small_macros)) ErrBadArgs (erefl _)).
Defined.

Lemma setup_is_read_only_small :
  (writes_setup (Call_VerifyKZGProof zero_Bytes48 zero_Bytes32 zero_Bytes32
                   zero_Bytes48) = false ->
   loaded (small_after_call call_verify_kzg_proof) = loaded small_loaded /\
   settings (small_after_call call_verify_kzg_proof) = settings small_loaded)
  /\ (ccalls (small_after_call call_verify_kzg_proof) = ccalls small_loaded \/
      exists cc, ccalls (small_after_call call_verify_kzg_proof)
                 = rcons (ccalls small_loaded) cc).
Proof.
exact: (@setup_is_read_only small_macros small_library
          (Call_VerifyKZGProof zero_Bytes48 zero_Bytes32 zero_Bytes32
             zero_Bytes48)
          small_loaded (small_after_call call_verify_kzg_proof)
          (Value_bool true, None) (erefl _)).
Defined.

Lemma panics_iff_not_loaded_small :
  (exists v, invoke small_macros small_library Call_FreeTrustedSetup
               (initial_State small_library) = Panicked v)
  <-> loaded (initial_State small_library) = false.
Proof.
exact: (@panics_iff_not_loaded small_macros small_library
          Call_FreeTrustedSetup (initial_State small_library) (erefl _)).
Defined.

Lemma rejections_without_C_call_small :
  Some ErrBadArgs = Some ErrBadArgs /\ small_loaded = small_loaded.
Proof.
exact: (@rejections_without_C_call_are_BadArgs small_macros small_library
          (Call_RecoverAllCells [:: 1] [::]) small_loaded small_loaded
          (Value_Cells (zero_Cells small_macros)) (Some ErrBadArgs)
          (erefl _) (erefl _)).
Defined.

Lemma loaded_iff_loader_succeeded_small :
  loaded (small_after_call call_load_trusted_setup) = true
  <-> @None error = None.
Proof.
exact: (@loaded_iff_loader_succeeded small_macros small_library
          (Call_LoadTrustedSetup [::] [::]) (initial_State small_library)
          (small_after_call call_load_trusted_setup) NoValue None
          (erefl _) (erefl _)).
Defined.

Lemma use_after_free_panics_small :
  bind (FreeTrustedSetup small_library)
    (fun _ => invoke small_macros small_library (Call_CellsToBlob [::]))
    small_loaded
  = Panicked not_loaded_msg.
Proof.
exact: (@use_after_free_panics small_macros small_library
          (Call_CellsToBlob [::]) small_loaded (erefl _) (erefl _)).
Defined.

Lemma load_free_load_small :
  same_outcome
    (bind (invoke small_macros small_library (Call_LoadTrustedSetup [::] [::]))
       (fun _ => bind (FreeTrustedSetup small_library)
          (fun _ => invoke small_macros small_library
                      (Call_LoadTrustedSetupFile "setup.txt")))
       (initial_State small_library))
    (invoke small_macros small_library (Call_LoadTrustedSetupFile "setup.txt")
       (initial_State small_library)).
Proof.
exact: (@load_free_load small_macros small_library
          (Call_LoadTrustedSetup [::] [::])
          (Call_LoadTrustedSetupFile "setup.txt")
          (initial_State small_library)
          (small_after_call call_load_trusted_setup) NoValue
          (erefl _) (erefl _) (erefl _)).
Defined.

Lemma makeErrorFromRet_inj_small : C_KZG_ERROR = C_KZG_ERROR.
Proof.
exact: (@makeErrorFromRet_inj C_KZG_ERROR C_KZG_ERROR (erefl _)).
Defined.

Lemma loaders_return_iff_small :
  ((exists r st',
      LoadTrustedSetup small_macros small_library (nseq 49 Byte.x00) [::]
        (initial_State small_library) = Returned (r, st'))
   <-> (BYTES_PER_G1 small_macros %| size (nseq 49 Byte.x00))
       && (BYTES_PER_G2 small_macros %| size (@nil byte))) /\
  ((exists r st',
      LoadTrustedSetupFile small_library "setup.txt"
        (initial_State small_library) = Returned (r, st'))
   <-> fopen_r small_library "setup.txt" <> None).
Proof.
exact: (@loaders_return_iff small_macros small_library
          (initial_State small_library) (nseq 49 Byte.x00) [::] "setup.txt"
          (erefl _)).
Defined.

Lemma RecoverAllCells_length_check_small :
  exists r st',
    [/\ RecoverAllCells small_macros small_library [:: 0] [::] small_loaded
        = Returned (r, st'),
        ccalls st' = rcons (ccalls small_loaded) call_recover_all_cells
        <-> size [:: 0] = size (@nil Cell)
      & size [:: 0] <> size (@nil Cell) ->
        r = (zero_Cells small_macros, Some ErrBadArgs) /\ st' = small_loaded].
Proof.
exact: (@RecoverAllCells_length_check small_macros small_library small_loaded
          [:: 0] [::] (erefl _)).
Defined.

Lemma UnmarshalText_first_bad_character_small :
  first_bad_character (strip_0x bad_digit_text) = 2 /\
  UnmarshalText_array 2 [:: Byte.x00; Byte.xaa] bad_digit_text
  = Returned ([:: Byte.x1f; Byte.xaa], Some (HexInvalidByteError Byte.x7a)).
Proof.
have [_ run] :=
  @UnmarshalText_first_bad_character 2 [:: Byte.x00; Byte.xaa] bad_digit_text
    (erefl _) (erefl _) (erefl _).
by split; [vm_compute | rewrite run; vm_compute].
Defined.

Lemma UnmarshalText_array_errors_small :
  [/\ (exists b', UnmarshalText_array 32 zero_Bytes32 [::]
                  = Returned (b', Some ErrBadArgs))
      <-> size (strip_0x [::]) <> 2 * 32,
      forall b', UnmarshalText_array 32 zero_Bytes32 [::]
                 <> Returned (b', Some HexErrLength)
    & forall v, UnmarshalText_array 32 zero_Bytes32 [::] <> Panicked v].
Proof.
exact: (@UnmarshalText_array_errors 32 zero_Bytes32 [::] (erefl _)).
Defined.

Lemma UnmarshalText_prefix_is_optional_small :
  UnmarshalText_array 1 [:: Byte.x00] [:: char_0, char_x & lower_ab]
  = UnmarshalText_array 1 [:: Byte.x00] lower_ab
  /\ Cell_UnmarshalText small_macros (zero_Cell small_macros)
       [:: char_0, char_x & lower_ab]
     = Cell_UnmarshalText small_macros (zero_Cell small_macros) lower_ab.
Proof.
exact: (@UnmarshalText_prefix_is_optional small_macros 1 [:: Byte.x00]
          (zero_Cell small_macros) lower_ab (erefl _)).
Defined.

Lemma UnmarshalText_reads_digit_values_small :
  UnmarshalText_array 1 [:: Byte.x00] upper_AB
  = UnmarshalText_array 1 [:: Byte.x00] lower_ab.
Proof.
exact: (@UnmarshalText_reads_digit_values 1 [:: Byte.x00] upper_AB lower_ab
          (erefl _) (erefl _) (erefl _)).
Defined.

Lemma UnmarshalText_value_small :
  nat_of_bytes [:: Byte.x01; Byte.xff] = hex_value (strip_0x text_01ff).
Proof.
exact: (@UnmarshalText_value 2 [:: Byte.x00; Byte.x00] [:: Byte.x01; Byte.xff]
          text_01ff (erefl _) (erefl _)).
Defined.

Lemma Cell_UnmarshalText_by_field_element_small :
  Bytes32_UnmarshalText zero_Bytes32
    (take 64 (drop (64 * 1) (strip_0x (nseq 128 char_0))))
  = Returned (zero_Bytes32, None).
Proof.
exact: (@Cell_UnmarshalText_by_field_element small_macros (erefl _) (erefl _)
          (zero_Cell small_macros) (zero_Cell small_macros) (nseq 128 char_0)
          1 (erefl _) (erefl _) (erefl _) (erefl _)).
Defined.

End SmallInstanceChecks.
